(** * PCB component placement: validator, scorer and search engine

    A shallow embedding of [placement_solver.py] (the algorithmic placer and
    its validator [validate_full]) and of the checker script
    [Test_placement_solver_ver2.py] ([validate_placement], [score_placement]).

    Numbers.  The Python code mixes [int] and [float].  Every coordinate the
    program builds is an integer or a half-integer, and is modelled as an
    exact rational ([Q]).  The one irrational operation is the Euclidean
    distance ([math.hypot], [math.sqrt]): a distance is kept as its square (a
    rational) and read as a real number through [sqrt]; comparisons of
    distances and of scores are decided on the rationals and proved equivalent
    to the comparison of the real values.

    Placements.  A placement is a Python [dict] from component names to
    rectangles.  Python dictionaries iterate in insertion order and the
    validator walks [list(placement.items())] by index, so a placement is an
    association list in insertion order. *)

From Stdlib Require Import ZArith QArith Qround Qreals Reals Lra Lia Psatz.
From Stdlib Require Import List String Bool.
From Stdlib Require Import Sorted Permutation.
Import ListNotations.

Open Scope Q_scope.

(** ** Assignment constants *)

Definition BOARD_DIMS : Z * Z := (50, 50)%Z.
Definition BOARD_W : Q := inject_Z (fst BOARD_DIMS).
Definition BOARD_H : Q := inject_Z (snd BOARD_DIMS).
Definition PROXIMITY_RADIUS : Q := 10.
Definition CENTER_OF_MASS_RADIUS : Q := 2.
Definition ZONE_W : Q := 10.
Definition ZONE_DEPTH : Q := 20.
Definition GRID_STEP : Z := 1.

(** ** Components and points *)

Record Comp : Type := mkComp { x : Q; y : Q; w : Q; h : Q }.

Definition Point : Type := (Q * Q)%type.

(** Strict comparison on rationals, as a boolean. *)
Definition Qlt_bool (a b : Q) : bool := negb (Qle_bool b a).

(** ** Geometry helpers *)

Definition center_of (c : Comp) : Point :=
  (x c + w c / 2, y c + h c / 2).

(** Square of [distance a b]. *)
Definition dist_sq (a b : Point) : Q :=
  (fst a - fst b) * (fst a - fst b) + (snd a - snd b) * (snd a - snd b).


(** [distance a b <= r] for a radius [r], decided on the squares. *)
Definition dist_leb (a b : Point) (r : Q) : bool :=
  Qle_bool (dist_sq a b) (r * r).

Definition bbox_overlap (a b : Comp) : bool :=
  negb (Qle_bool (x a + w a) (x b) || Qle_bool (x b + w b) (x a) ||
        Qle_bool (y a + h a) (y b) || Qle_bool (y b + h b) (y a)).

Definition in_bounds (c : Comp) : bool :=
  Qle_bool 0 (x c) && Qle_bool 0 (y c) &&
  Qle_bool (x c + w c) BOARD_W &&
  Qle_bool (y c + h c) BOARD_H.

Definition ccw (A B C : Point) : bool :=
  Qlt_bool ((snd B - snd A) * (fst C - fst A))
           ((snd C - snd A) * (fst B - fst A)).

Definition intersect (A B C D : Point) : bool :=
  negb (eqb (ccw A C D) (ccw B C D)) && negb (eqb (ccw A B C) (ccw A B D)).

Definition tl (r : Comp) : Point := (x r, y r).
Definition tr (r : Comp) : Point := (x r + w r, y r).
Definition bl (r : Comp) : Point := (x r, y r + h r).
Definition br (r : Comp) : Point := (x r + w r, y r + h r).

Definition line_intersects_rect (p1 p2 : Point) (rect : Comp) : bool :=
  intersect p1 p2 (tl rect) (tr rect) || intersect p1 p2 (tr rect) (br rect) ||
  intersect p1 p2 (br rect) (bl rect) || intersect p1 p2 (bl rect) (tl rect).

Definition compute_keepout_zone (usb : Comp) : Comp :=
  let usb_cx := fst (center_of usb) in
  let usb_cy := snd (center_of usb) in
  if Qeq_bool (y usb) 0 then
    mkComp (usb_cx - ZONE_W / 2) 0 ZONE_W ZONE_DEPTH
  else if Qeq_bool (y usb + h usb) BOARD_H then
    mkComp (usb_cx - ZONE_W / 2) (BOARD_H - ZONE_DEPTH) ZONE_W ZONE_DEPTH
  else if Qeq_bool (x usb) 0 then
    mkComp 0 (usb_cy - ZONE_W / 2) ZONE_DEPTH ZONE_W
  else
    mkComp (BOARD_W - ZONE_DEPTH) (usb_cy - ZONE_W / 2) ZONE_DEPTH ZONE_W.

(** ** Placements as insertion-ordered dictionaries *)

Definition Placement : Type := list (string * Comp).

Fixpoint get (p : Placement) (k : string) : option Comp :=
  match p with
  | [] => None
  | (k', c) :: rest => if String.eqb k k' then Some c else get rest k
  end.

(** [k in placement] *)
Definition contains (p : Placement) (k : string) : bool :=
  match get p k with Some _ => true | None => false end.

(** [placement[k] = c]: an existing key keeps its position, a new key is
    appended. *)
Fixpoint set_item (p : Placement) (k : string) (c : Comp) : Placement :=
  match p with
  | [] => [(k, c)]
  | (k', c') :: rest =>
      if String.eqb k k' then (k', c) :: rest else (k', c') :: set_item rest k c
  end.

(** [placement.update(other)] *)
Definition update (p other : Placement) : Placement :=
  fold_left (fun acc kc => set_item acc (fst kc) (snd kc)) other p.

Definition values (p : Placement) : list Comp := map snd p.

Definition USB : string := "USB_CONNECTOR".
Definition MC : string := "MICROCONTROLLER".
Definition XTAL : string := "CRYSTAL".
Definition MB1 : string := "MIKROBUS_CONNECTOR_1".
Definition MB2 : string := "MIKROBUS_CONNECTOR_2".

Definition required_keys : list string := [USB; MC; XTAL; MB1; MB2].

(** Component sizes ([SIZES]); every name of the table is one of the five. *)
Definition SIZES (k : string) : Z * Z :=
  if String.eqb k MB1 then (5, 15)%Z
  else if String.eqb k MB2 then (5, 15)%Z
  else (5, 5)%Z.

(** ** Failure: a Python exception ([KeyError], [ValueError],
    [ZeroDivisionError]) is [None]. *)

Definition bind {A B : Type} (m : option A) (f : A -> option B) : option B :=
  match m with Some a => f a | None => None end.

Notation "a <- m ;; k" := (bind m (fun a => k))
  (at level 61, m at next level, right associativity).

(** [min(a, b)] and [max(a, b)]: the first argument wins a tie. *)
Definition min2 (a b : Q) : Q := if Qlt_bool b a then b else a.
Definition max2 (a b : Q) : Q := if Qlt_bool a b then b else a.

(** [min(...)] and [max(...)] of a generator; the empty one raises. *)
Definition min_of (l : list Q) : option Q :=
  match l with
  | [] => None
  | a :: rest => Some (fold_left min2 rest a)
  end.

Definition max_of (l : list Q) : option Q :=
  match l with
  | [] => None
  | a :: rest => Some (fold_left max2 rest a)
  end.

(** [sum(...)] *)
Definition sum (l : list Q) : Q := fold_left Qplus l 0.

Definition len {A : Type} (l : list A) : Q := inject_Z (Z.of_nat (List.length l)).

Definition board_center : Point := (BOARD_W / 2, BOARD_H / 2).

(** ** Scoring *)

(** The triple returned by [compute_score] is
    [(total_score s, bounding_box_area s, centrality_score s)]; the record
    keeps the square of the centrality, the radicand of the square root. *)
Record Score : Type := mkScore { bounding_box_area : Q; centrality_sq : Q }.

Definition centrality_score (s : Score) : R := sqrt (Q2R (centrality_sq s)).

Definition total_score (s : Score) : R :=
  (Q2R (bounding_box_area s) + 10 * centrality_score s)%R.

Definition compute_score (p : Placement) : option Score :=
  min_x <- min_of (map x (values p)) ;;
  max_x <- max_of (map (fun c => x c + w c) (values p)) ;;
  min_y <- min_of (map y (values p)) ;;
  max_y <- max_of (map (fun c => y c + h c) (values p)) ;;
  micro <- get p MC ;;
  Some (mkScore ((max_x - min_x) * (max_y - min_y))
                (dist_sq (center_of micro) board_center)).

(** [a + 10 * sqrt s < b + 10 * sqrt t], decided on the rationals. *)
Definition surd_ltb (a s b t : Q) : bool :=
  let d := (b - a) / 10 in
  let e := s + t - d * d in
  if Qlt_bool 0 d then
    Qle_bool s t || Qlt_bool e 0 || Qlt_bool (e * e) (4 * s * t)
  else
    Qlt_bool s t && Qlt_bool 0 e && Qlt_bool (4 * s * t) (e * e).

(** [total_score s1 < total_score s2] *)
Definition score_ltb (s1 s2 : Score) : bool :=
  surd_ltb (bounding_box_area s1) (centrality_sq s1)
           (bounding_box_area s2) (centrality_sq s2).

(** ** Deterministic seating of the edge components *)

Definition place_edge_components : Placement :=
  let mb_w := inject_Z (fst (SIZES MB1)) in
  let mb_h := inject_Z (snd (SIZES MB1)) in
  let usb_w := inject_Z (fst (SIZES USB)) in
  let usb_h := inject_Z (snd (SIZES USB)) in
  let mb1_x := 0 in
  let mb1_y := 10 in
  let mb1_y := min2 (max2 0 mb1_y) (BOARD_H - mb_h) in
  let mb2_x := BOARD_W - mb_w in
  let mb2_y := mb1_y in
  let usb_x := (BOARD_W - usb_w) / 2 in
  let usb_y := BOARD_H - usb_h in
  let placement := [] in
  let placement := set_item placement MB1 (mkComp mb1_x mb1_y mb_w mb_h) in
  let placement := set_item placement MB2 (mkComp mb2_x mb2_y mb_w mb_h) in
  let placement := set_item placement USB (mkComp usb_x usb_y usb_w usb_h) in
  placement.

(** ** The validator of the solver: [validate_full] *)

(** A diagnostic text.  [Fmt pre d2 post] is the f-string
    [pre ++ "{dist:.2f}" ++ post] for the distance whose square is [d2]; the
    rendering of the float is not modelled. *)
Inductive Diag : Type :=
| Text (s : string)
| Fmt (pre : string) (d2 : Q) (post : string).

(** The [results] dictionary, in insertion order. *)
Definition Results : Type := list (string * (bool * Diag)).

(** Second component of the value returned by the validator:
    [{'missing': True}] or the per-rule results. *)
Inductive Report : Type :=
| Missing
| Rules (results : Results).

(** The double loop over [items[i]], [items[j]] with [i < j]. *)
Fixpoint any_overlap (overlap : Comp -> Comp -> bool) (cs : list Comp) : bool :=
  match cs with
  | [] => false
  | c :: rest => existsb (overlap c) rest || any_overlap overlap rest
  end.

Definition touches (comp : Comp) : bool :=
  Qeq_bool (x comp) 0 || Qeq_bool (y comp) 0 ||
  Qeq_bool (x comp + w comp) BOARD_W ||
  Qeq_bool (y comp + h comp) BOARD_H.

(** The loop over [edge_names]; it stops at the first component off the
    edges. *)
Fixpoint all_on_edge (p : Placement) (names : list string) : option bool :=
  match names with
  | [] => Some true
  | name :: rest =>
      comp <- get p name ;;
      if touches comp then all_on_edge p rest else Some false
  end.

Definition edge_names : list string := [USB; MB1; MB2].

Definition is_parallel (mb1 mb2 : Comp) : bool :=
  Qeq_bool (w mb1) (w mb2) &&
  ((Qeq_bool (x mb1) 0 && Qeq_bool (x mb2 + w mb2) BOARD_W) ||
   (Qeq_bool (x mb1 + w mb1) BOARD_W && Qeq_bool (x mb2) 0) ||
   (Qeq_bool (y mb1) 0 && Qeq_bool (y mb2 + h mb2) BOARD_H) ||
   (Qeq_bool (y mb1 + h mb1) BOARD_H && Qeq_bool (y mb2) 0)).

(** Mean of the centers; dividing by [len(centers) = 0] raises. *)
Definition center_of_mass (cs : list Comp) : option Point :=
  let centers := map center_of cs in
  match centers with
  | [] => None
  | _ => Some (sum (map fst centers) / len centers,
               sum (map snd centers) / len centers)
  end.

Definition all_ok (results : Results) : bool :=
  forallb (fun item => fst (snd item)) results.

Definition validate_full (p : Placement) : option (bool * Report) :=
  if negb (forallb (contains p) required_keys) then Some (false, Missing)
  else
    let all_in_bounds := forallb in_bounds (values p) in
    let overlap := any_overlap bbox_overlap (values p) in
    on_edge <- all_on_edge p edge_names ;;
    mb1 <- get p MB1 ;;
    mb2 <- get p MB2 ;;
    xtal <- get p XTAL ;;
    micro <- get p MC ;;
    let d2 := dist_sq (center_of xtal) (center_of micro) in
    com <- center_of_mass (values p) ;;
    let com_d2 := dist_sq com board_center in
    usb <- get p USB ;;
    let zone := compute_keepout_zone usb in
    let intersects :=
      line_intersects_rect (center_of xtal) (center_of micro) zone in
    let results :=
      [ ("Boundary Constraint", (all_in_bounds, Text ""));
        ("No Overlapping", (negb overlap, Text ""));
        ("Edge Placement", (on_edge, Text ""));
        ("Parallel Placement", (is_parallel mb1 mb2, Text ""));
        ("Proximity Constraint",
          (dist_leb (center_of xtal) (center_of micro) PROXIMITY_RADIUS,
           Fmt "Actual: " d2 ""));
        ("Global Balance",
          (dist_leb com board_center CENTER_OF_MASS_RADIUS,
           Fmt "CoM dist: " com_d2 ""));
        ("Keep-Out Zone",
          (negb intersects, Text (if negb intersects then "clear" else "intersects")))
      ]%string in
    Some (all_ok results, Rules results).

(** ** The checker script: [validate_placement] and [score_placement] *)

Module Checker.

Definition _get_center (comp : Comp) : Point :=
  (x comp + w comp / 2, y comp + h comp / 2).

(** Square of [_distance p1 p2]. *)
Definition _distance_sq (p1 p2 : Point) : Q :=
  (fst p2 - fst p1) * (fst p2 - fst p1) + (snd p2 - snd p1) * (snd p2 - snd p1).

Definition _distance (p1 p2 : Point) : R := sqrt (Q2R (_distance_sq p1 p2)).

Definition comp_in_bounds (comp : Comp) : bool :=
  Qle_bool 0 (x comp) && Qle_bool 0 (y comp) &&
  Qle_bool (x comp + w comp) BOARD_W &&
  Qle_bool (y comp + h comp) BOARD_H.

Definition pair_overlap (c1 c2 : Comp) : bool :=
  negb (Qle_bool (x c1 + w c1) (x c2) || Qle_bool (x c2 + w c2) (x c1) ||
        Qle_bool (y c1 + h c1) (y c2) || Qle_bool (y c2 + h c2) (y c1)).

Definition on_edge (comp : Comp) : bool :=
  Qeq_bool (x comp) 0 || Qeq_bool (y comp) 0 ||
  Qeq_bool (x comp + w comp) BOARD_W || Qeq_bool (y comp + h comp) BOARD_H.

Fixpoint all_on_edge (p : Placement) (names : list string) : option bool :=
  match names with
  | [] => Some true
  | name :: rest =>
      comp <- get p name ;;
      if on_edge comp then all_on_edge p rest else Some false
  end.

Definition is_parallel (mb1 mb2 : Comp) : bool :=
  if Qeq_bool (w mb1) (w mb2) then
    let on_opp_v :=
      (Qeq_bool (x mb1) 0 && Qeq_bool (x mb2 + w mb2) BOARD_W) ||
      (Qeq_bool (x mb1 + w mb1) BOARD_W && Qeq_bool (x mb2) 0) in
    let on_opp_h :=
      (Qeq_bool (y mb1) 0 && Qeq_bool (y mb2 + h mb2) BOARD_H) ||
      (Qeq_bool (y mb1 + h mb1) BOARD_H && Qeq_bool (y mb2) 0) in
    if on_opp_v || on_opp_h then true else false
  else false.

Definition zone_of (usb : Comp) : Comp :=
  let zone_w := ZONE_W in
  let zone_h_inward := ZONE_DEPTH in
  let usb_cx := fst (_get_center usb) in
  let usb_cy := snd (_get_center usb) in
  if Qeq_bool (y usb) 0 then
    mkComp (usb_cx - zone_w / 2) 0 zone_w zone_h_inward
  else if Qeq_bool (y usb + h usb) BOARD_H then
    mkComp (usb_cx - zone_w / 2) (BOARD_H - zone_h_inward) zone_w zone_h_inward
  else if Qeq_bool (x usb) 0 then
    mkComp 0 (usb_cy - zone_w / 2) zone_h_inward zone_w
  else
    mkComp (BOARD_W - zone_h_inward) (usb_cy - zone_w / 2) zone_h_inward zone_w.

Definition zone_intersects (p1 p2 : Point) (zone : Comp) : bool :=
  let tl := (x zone, y zone) in
  let tr := (x zone + w zone, y zone) in
  let bl := (x zone, y zone + h zone) in
  let br := (x zone + w zone, y zone + h zone) in
  intersect p1 p2 tl tr || intersect p1 p2 tr br ||
  intersect p1 p2 br bl || intersect p1 p2 bl tl.

(** The report loop: [all_valid] starts true and is cleared by every
    failed rule. *)
Definition all_valid (results : Results) : bool :=
  fold_left (fun acc item => if negb (fst (snd item)) then false else acc)
            results true.

(** [validate_placement] returns the boolean; the report it prints is
    returned with it. *)
Definition validate_placement (p : Placement) : option (bool * Report) :=
  if negb (forallb (contains p) required_keys) then Some (false, Missing)
  else
    let all_in_bounds := forallb comp_in_bounds (values p) in
    let overlap_found := any_overlap pair_overlap (values p) in
    all_on_edge <- all_on_edge p edge_names ;;
    mb1 <- get p MB1 ;;
    mb2 <- get p MB2 ;;
    xtal <- get p XTAL ;;
    micro <- get p MC ;;
    let d2 := _distance_sq (_get_center xtal) (_get_center micro) in
    match values p with
    | [] => None
    | _ =>
      let com_x := sum (map (fun c => fst (_get_center c)) (values p)) / len p in
      let com_y := sum (map (fun c => snd (_get_center c)) (values p)) / len p in
      let com_d2 := _distance_sq (com_x, com_y) board_center in
      usb <- get p USB ;;
      let zone := zone_of usb in
      let intersects :=
        zone_intersects (_get_center xtal) (_get_center micro) zone in
      let results :=
        [ ("Boundary Constraint", (all_in_bounds, Text ""));
          ("No Overlapping", (negb overlap_found, Text ""));
          ("Edge Placement", (all_on_edge, Text ""));
          ("Parallel Placement", (is_parallel mb1 mb2, Text ""));
          ("Proximity Constraint",
            (Qle_bool d2 (PROXIMITY_RADIUS * PROXIMITY_RADIUS),
             Fmt "Actual distance: " d2 " (Limit: 10.0)"));
          ("Global Balance",
            (Qle_bool com_d2 (CENTER_OF_MASS_RADIUS * CENTER_OF_MASS_RADIUS),
             Fmt "CoM dist from center: " com_d2 " (Limit: 2.0)"));
          ("Keep-Out Zone",
            (negb intersects,
             Text (if negb intersects then "Path is clear"
                   else "Path is obstructed")))
        ]%string in
      Some (all_valid results, Rules results)
    end.

(** [score_placement] returns [total_score s]. *)
Definition total_score (s : Score) : R :=
  (Q2R (bounding_box_area s) + sqrt (Q2R (centrality_sq s)) * 10)%R.

Definition score_placement (p : Placement) : option Score :=
  min_x <- min_of (map x (values p)) ;;
  max_x <- max_of (map (fun c => x c + w c) (values p)) ;;
  min_y <- min_of (map y (values p)) ;;
  max_y <- max_of (map (fun c => y c + h c) (values p)) ;;
  micro <- get p MC ;;
  Some (mkScore ((max_x - min_x) * (max_y - min_y))
                (_distance_sq (_get_center micro) board_center)).

Definition sample_valid_placement : Placement :=
  [ (USB, mkComp 20 45 5 5);
    (MB1, mkComp 0 15 5 15);
    (MB2, mkComp 45 15 5 15);
    (MC, mkComp 22 22 5 5);
    (XTAL, mkComp 25 14 5 5) ].

End Checker.

(** ** Ring enumeration of the microcontroller cells *)

(** [int(q)]: truncation toward zero. *)
Definition Qint (q : Q) : Z := Z.quot (Qnum q) (Zpos (Qden q)).

(** [range(lo, hi)], also [range(lo, hi, GRID_STEP)]: the step is one. *)
Definition range (lo hi : Z) : list Z :=
  map (fun i => (lo + Z.of_nat i)%Z) (seq 0 (Z.to_nat (hi - lo))).

Definition cell_ok (cx cy : Z) : bool :=
  let limit_x := (fst BOARD_DIMS - fst (SIZES MC))%Z in
  let limit_y := (snd BOARD_DIMS - snd (SIZES MC))%Z in
  (0 <=? cx)%Z && (cx <=? limit_x)%Z && (0 <=? cy)%Z && (cy <=? limit_y)%Z.

(** The cells one ring radius [r] yields: first the two rows [dy = -r, r] for
    every [dx], then the two columns [dx = -r, r] for the remaining [dy]. *)
Definition ring (cx cy r : Z) : list (Z * Z) :=
  flat_map (fun dx =>
    flat_map (fun dy =>
      let px := (cx + dx)%Z in
      let py := (cy + dy)%Z in
      if cell_ok px py then [(px, py)] else [])
      [(- r)%Z; r])
    (range (- r) (r + 1))
  ++
  flat_map (fun dy =>
    flat_map (fun dx =>
      let px := (cx + dx)%Z in
      let py := (cy + dy)%Z in
      if cell_ok px py then [(px, py)] else [])
      [(- r)%Z; r])
    (range (- r + 1) r).

(** The generator, as the list of the cells it yields, in order. *)
Definition prioritized_positions (center : Point) : list (Z * Z) :=
  let cx := Qint (fst center) in
  let cy := Qint (snd center) in
  let maxr := Z.max (fst BOARD_DIMS) (snd BOARD_DIMS) in
  (cx, cy) :: flat_map (ring cx cy) (range 1 maxr).

Definition default_center : Point := (BOARD_W / 2, BOARD_H / 2).

(** ** The search engine: [find_solution] *)

(** The wall clock.  [expired n] tells whether the [n]-th test
    [time.perf_counter() - t0 > timeout] of a run holds; the search threads
    the number of tests made so far. *)
Definition Clock : Type := nat -> bool.

(** [best], a placement with its score; [best_score] is the score of [best],
    infinite when [best] is [None]. *)
Definition Best : Type := option (Placement * Score).

Definition better (s : Score) (best : Best) : bool :=
  match best with
  | None => true
  | Some (_, best_score) => score_ltb s best_score
  end.

(** Body of the loop over [cy]: one crystal candidate.  [None] is a raised
    exception.  [base[k] for k in base.keys()] runs over the values of
    [base], in order. *)
Definition try_crystal (base : Placement) (keepout_zone mc : Comp)
    (cx cy : Z) (best : Best) : option Best :=
  let xt_w := inject_Z (fst (SIZES XTAL)) in
  let xt_h := inject_Z (snd (SIZES XTAL)) in
  let mc_center := center_of mc in
  let xt := mkComp (inject_Z cx) (inject_Z cy) xt_w xt_h in
  let xt_center := center_of xt in
  if negb (dist_leb mc_center xt_center PROXIMITY_RADIUS) then Some best
  else if negb (in_bounds xt) then Some best
  else if existsb (bbox_overlap xt) (values base) then Some best
  else if bbox_overlap xt mc then Some best
  else
    let placement := [] in
    let placement := update placement base in
    let placement := set_item placement MC mc in
    let placement := set_item placement XTAL xt in
    com <- center_of_mass (values placement) ;;
    if negb (dist_leb com board_center CENTER_OF_MASS_RADIUS) then Some best
    else
      xtal <- get placement XTAL ;;
      micro <- get placement MC ;;
      if line_intersects_rect (center_of xtal) (center_of micro) keepout_zone
      then Some best
      else if any_overlap bbox_overlap (values placement) then Some best
      else
        score <- compute_score placement ;;
        if better score best then Some (Some (placement, score))
        else Some best.

Fixpoint loop_cy (base : Placement) (keepout_zone mc : Comp) (cx : Z)
    (cys : list Z) (best : Best) : option Best :=
  match cys with
  | [] => Some best
  | cy :: rest =>
      best' <- try_crystal base keepout_zone mc cx cy best ;;
      loop_cy base keepout_zone mc cx rest best'
  end.

(** The loop over [cx]; it polls the clock before each row. *)
Fixpoint loop_cx (expired : Clock) (base : Placement) (keepout_zone mc : Comp)
    (cxs cys : list Z) (best : Best) (n : nat) : option (Best * nat) :=
  match cxs with
  | [] => Some (best, n)
  | cx :: rest =>
      if expired n then Some (best, S n)
      else
        best' <- loop_cy base keepout_zone mc cx cys best ;;
        loop_cx expired base keepout_zone mc rest cys best' (S n)
  end.

(** The loop over the microcontroller cells; it polls the clock before each
    cell. *)
Fixpoint loop_mc (expired : Clock) (base : Placement) (keepout_zone : Comp)
    (cells : list (Z * Z)) (best : Best) (n : nat) : option (Best * nat) :=
  match cells with
  | [] => Some (best, n)
  | (mx, my) :: rest =>
      if expired n then Some (best, S n)
      else
        let mc_w := inject_Z (fst (SIZES MC)) in
        let mc_h := inject_Z (snd (SIZES MC)) in
        let xt_w := fst (SIZES XTAL) in
        let xt_h := snd (SIZES XTAL) in
        let mc := mkComp (inject_Z mx) (inject_Z my) mc_w mc_h in
        if existsb (bbox_overlap mc) (values base)
        then loop_mc expired base keepout_zone rest best (S n)
        else
          let mc_center := center_of mc in
          let min_cx := Z.max 0 (Qint (fst mc_center - PROXIMITY_RADIUS)) in
          let max_cx := Z.min (fst BOARD_DIMS - xt_w)
                              (Qint (fst mc_center + PROXIMITY_RADIUS)) in
          let min_cy := Z.max 0 (Qint (snd mc_center - PROXIMITY_RADIUS)) in
          let max_cy := Z.min (snd BOARD_DIMS - xt_h)
                              (Qint (snd mc_center + PROXIMITY_RADIUS)) in
          st <- loop_cx expired base keepout_zone mc
                  (range min_cx (max_cx + 1)) (range min_cy (max_cy + 1))
                  best (S n) ;;
          loop_mc expired base keepout_zone rest (fst st) (snd st)
  end.

(** [find_solution]: the best placement with its score, or [None] for the
    no-solution tuple; the outer [option] is a raised exception. *)
Definition find_solution (expired : Clock) : option Best :=
  let base := place_edge_components in
  usb <- get base USB ;;
  let keepout_zone := compute_keepout_zone usb in
  st <- loop_mc expired base keepout_zone
          (prioritized_positions default_center) None 0 ;;
  Some (fst st).

(** A clock whose deadline never passes. *)
Definition never : Clock := fun _ => false.

(** * Vocabulary of the properties *)

(** The two rectangles meet on a side line: one ends where the other
    starts, on some axis. *)
Definition touching (a b : Comp) : Prop :=
  x a + w a == x b \/ x b + w b == x a \/
  y a + h a == y b \/ y b + h b == y a.

(** Some required name is absent from the placement. *)
Definition incomplete (p : Placement) : Prop :=
  exists k, In k required_keys /\ contains p k = false.

(** All five required names are present. *)
Definition complete (p : Placement) : Prop :=
  forall k, In k required_keys -> contains p k = true.

(** What the validator returns for a complete placement: the seven rules,
    each evaluated on the placement alone, and their conjunction. *)
Definition rules_contract (p : Placement) : Prop :=
  exists usb mb1 mb2 xtal micro com,
    get p USB = Some usb /\ get p MB1 = Some mb1 /\ get p MB2 = Some mb2 /\
    get p XTAL = Some xtal /\ get p MC = Some micro /\
    center_of_mass (values p) = Some com /\
    let boundary := forallb in_bounds (values p) in
    let no_overlap := negb (any_overlap bbox_overlap (values p)) in
    let edge := touches usb && touches mb1 && touches mb2 in
    let parallel := is_parallel mb1 mb2 in
    let proximity :=
      dist_leb (center_of xtal) (center_of micro) PROXIMITY_RADIUS in
    let balance := dist_leb com board_center CENTER_OF_MASS_RADIUS in
    let keepout :=
      negb (line_intersects_rect (center_of xtal) (center_of micro)
              (compute_keepout_zone usb)) in
    validate_full p =
      Some (boundary && no_overlap && edge && parallel && proximity &&
            balance && keepout,
            Rules
              [ ("Boundary Constraint", (boundary, Text ""));
                ("No Overlapping", (no_overlap, Text ""));
                ("Edge Placement", (edge, Text ""));
                ("Parallel Placement", (parallel, Text ""));
                ("Proximity Constraint",
                  (proximity,
                   Fmt "Actual: "
                       (dist_sq (center_of xtal) (center_of micro)) ""));
                ("Global Balance",
                  (balance, Fmt "CoM dist: " (dist_sq com board_center) ""));
                ("Keep-Out Zone",
                  (keepout, Text (if keepout then "clear" else "intersects")))
              ]%string).

(** A complete placement breaking several rules at once: the
    microcontroller is off the board and far from the crystal. *)
Definition broken_placement : Placement :=
  [ (USB, mkComp 20 45 5 5);
    (MB1, mkComp 0 15 5 15);
    (MB2, mkComp 45 15 5 15);
    (MC, mkComp 60 60 5 5);
    (XTAL, mkComp 25 14 5 5) ].

(** Names and outcomes of a rule report. *)
Definition outcomes (results : Results) : list (string * bool) :=
  map (fun item => (fst item, fst (snd item))) results.

Definition all_seven_pass : list (string * bool) :=
  [ ("Boundary Constraint", true); ("No Overlapping", true);
    ("Edge Placement", true); ("Parallel Placement", true);
    ("Proximity Constraint", true); ("Global Balance", true);
    ("Keep-Out Zone", true) ]%string.












(** The minimal axis-aligned box enclosing the rectangles of a placement,
    as [(min_x, max_x, min_y, max_y)]: the four extrema [compute_score]
    takes. *)
Definition bounding_box (p : Placement) : option (Q * Q * Q * Q) :=
  min_x <- min_of (map x (values p)) ;;
  max_x <- max_of (map (fun c => x c + w c) (values p)) ;;
  min_y <- min_of (map y (values p)) ;;
  max_y <- max_of (map (fun c => y c + h c) (values p)) ;;
  Some (min_x, max_x, min_y, max_y).



Definition micro_at (mx my : Z) : Comp :=
  mkComp (inject_Z mx) (inject_Z my)
         (inject_Z (fst (SIZES MC))) (inject_Z (snd (SIZES MC))).

Definition crystal_at (cx cy : Z) : Comp :=
  mkComp (inject_Z cx) (inject_Z cy)
         (inject_Z (fst (SIZES XTAL))) (inject_Z (snd (SIZES XTAL))).

(** The placement [try_crystal] assembles. *)
Definition assemble (base : Placement) (mc xt : Comp) : Placement :=
  set_item (set_item (update [] base) MC mc) XTAL xt.

(** The conjunction of the tests a crystal candidate goes through. *)
Definition passes (base : Placement) (zone mc xt : Comp) : bool :=
  dist_leb (center_of mc) (center_of xt) PROXIMITY_RADIUS &&
  in_bounds xt &&
  negb (existsb (bbox_overlap xt) (values base)) &&
  negb (bbox_overlap xt mc) &&
  match center_of_mass (values (assemble base mc xt)) with
  | Some com => dist_leb com board_center CENTER_OF_MASS_RADIUS
  | None => false
  end &&
  negb (line_intersects_rect (center_of xt) (center_of mc) zone) &&
  negb (any_overlap bbox_overlap (values (assemble base mc xt))).

(** The candidate of a crystal cell: the assembled placement with its
    score when it passes the tests. *)
Definition candidate (base : Placement) (zone mc : Comp) (cx cy : Z)
    : option (Placement * Score) :=
  if passes base zone mc (crystal_at cx cy) then
    match compute_score (assemble base mc (crystal_at cx cy)) with
    | Some s => Some (assemble base mc (crystal_at cx cy), s)
    | None => None
    end
  else None.

(** One update of [best]: a candidate replaces it only with a strictly
    smaller total score. *)
Definition keep_better (best : Best) (c : Placement * Score) : Best :=
  if better (snd c) best then Some c else best.

Definition consider (best : Best) (c : option (Placement * Score)) : Best :=
  match c with Some c => keep_better best c | None => best end.

(** [best] is empty or satisfies [Phi]. *)
Definition best_sat (Phi : Placement * Score -> Prop) (best : Best) : Prop :=
  match best with Some c => Phi c | None => True end.

(** The seated connectors. *)
Definition MB1_SEAT : Comp := mkComp 0 10 5 15.
Definition MB2_SEAT : Comp := mkComp 45 10 5 15.
Definition USB_SEAT : Comp := mkComp (45 # 2) 45 5 5.

(** The zone of the seated USB connector. *)
Definition SEAT_ZONE : Comp := compute_keepout_zone USB_SEAT.

(** All seven rules pass on the placement of a candidate. *)
Definition passes_validator (c : Placement * Score) : Prop :=
  exists results,
    validate_full (fst c) = Some (true, Rules results) /\
    outcomes results = all_seven_pass.

(** A deadline that passes at the fourth poll: the search returns the best
    of the first two crystal rows around the center cell. *)
Definition fourth_poll : Clock := fun n => Nat.leb 3 n.

(** The columns and rows of the crystal cells tried around a
    microcontroller: [range(min_cx, max_cx + 1)] and
    [range(min_cy, max_cy + 1)]. *)
Definition crystal_cols (mc : Comp) : list Z :=
  range (Z.max 0 (Qint (fst (center_of mc) - PROXIMITY_RADIUS)))
        (Z.min (fst BOARD_DIMS - fst (SIZES XTAL))
               (Qint (fst (center_of mc) + PROXIMITY_RADIUS)) + 1).

Definition crystal_rows (mc : Comp) : list Z :=
  range (Z.max 0 (Qint (snd (center_of mc) - PROXIMITY_RADIUS)))
        (Z.min (snd BOARD_DIMS - snd (SIZES XTAL))
               (Qint (snd (center_of mc) + PROXIMITY_RADIUS)) + 1).

(** The candidates of one microcontroller cell, in the order the loops
    visit the crystal cells; a cell overlapping a seated connector has
    none. *)
Definition cell_candidates (base : Placement) (zone : Comp) (cell : Z * Z)
    : list (option (Placement * Score)) :=
  let mc := micro_at (fst cell) (snd cell) in
  if existsb (bbox_overlap mc) (values base) then []
  else flat_map (fun cx => map (candidate base zone mc cx) (crystal_rows mc))
                (crystal_cols mc).

(** The clock polls one microcontroller cell costs. *)
Definition cell_polls (base : Placement) (cell : Z * Z) : nat :=
  let mc := micro_at (fst cell) (snd cell) in
  if existsb (bbox_overlap mc) (values base) then 1%nat
  else S (List.length (crystal_cols mc)).

Definition accepted {A : Type} (l : list (option A)) : list A :=
  flat_map (fun o => match o with Some c => [c] | None => [] end) l.

(** Every accepted candidate of the whole search, in enumeration order. *)
Definition search_candidates : list (Placement * Score) :=
  accepted (flat_map (cell_candidates place_edge_components SEAT_ZONE)
                     (prioritized_positions default_center)).

Definition score_nonneg (c : Placement * Score) : Prop :=
  0 <= centrality_sq (snd c).


(** [results[name][0]]: the outcome recorded for a rule. *)
Fixpoint rule_outcome (name : string) (results : Results) : option bool :=
  match results with
  | [] => None
  | (name', (ok, _)) :: rest =>
      if String.eqb name name' then Some ok else rule_outcome name rest
  end.

(** The rectangle lies within the closed board. *)
Definition inside_board (c : Comp) : Prop :=
  0 <= x c /\ 0 <= y c /\ x c + w c <= BOARD_W /\ y c + h c <= BOARD_H.



(** Ring distance of a cell from the cell [(cx, cy)]. *)
Definition ring_distance (cx cy : Z) (cell : Z * Z) : Z :=
  Z.max (Z.abs (fst cell - cx)) (Z.abs (snd cell - cy)).

(** The cells a microcontroller can occupy, [0 .. 45] x [0 .. 45]. *)
Definition grid_cells : list (Z * Z) :=
  map (fun k => (Z.of_nat (k / 46), Z.of_nat (k mod 46))) (seq 0 2116).

(** [cells] is in ring order around [(cx, cy)]: ring distances never
    decrease from one cell to the next. *)
Fixpoint ring_ordered (cx cy : Z) (cells : list (Z * Z)) : bool :=
  match cells with
  | a :: (b :: _) as rest =>
      (ring_distance cx cy a <=? ring_distance cx cy b)%Z &&
      ring_ordered cx cy rest
  | _ => true
  end.

(** The placement of a search result: the seated connectors, a
    microcontroller and a crystal on grid cells of the board. *)
Definition grid_placement (mx my cx cy : Z) : Placement :=
  [ (MB1, MB1_SEAT); (MB2, MB2_SEAT); (USB, USB_SEAT);
    (MC, micro_at mx my); (XTAL, crystal_at cx cy) ].

(** * Properties *)

(** ** Boolean comparisons on rationals *)

Lemma Qlt_bool_iff (a b : Q) : Qlt_bool a b = true <-> a < b.
Proof.
  unfold Qlt_bool. rewrite negb_true_iff.
  split; intro H.
  - apply Qnot_le_lt. intro Hle. apply Qle_bool_iff in Hle. congruence.
  - destruct (Qle_bool b a) eqn:E; [|reflexivity].
    apply Qle_bool_iff in E. exfalso. apply (Qlt_not_le _ _ H E).
Qed.

Lemma Qlt_bool_false_iff (a b : Q) : Qlt_bool a b = false <-> b <= a.
Proof.
  unfold Qlt_bool. rewrite negb_false_iff. apply Qle_bool_iff.
Qed.

Lemma Qle_bool_false_iff (a b : Q) : Qle_bool a b = false <-> b < a.
Proof.
  rewrite <- Qlt_bool_iff. unfold Qlt_bool.
  destruct (Qle_bool a b); simpl; intuition congruence.
Qed.

Lemma Qeq_bool_false_iff (a b : Q) : Qeq_bool a b = false <-> ~ a == b.
Proof.
  split.
  - apply Qeq_bool_neq.
  - intro H. destruct (Qeq_bool a b) eqn:E; [|reflexivity].
    apply Qeq_bool_iff in E. contradiction.
Qed.

(** Turns the boolean tests of the hypotheses and of the goal into
    (in)equalities of rationals. *)
Ltac qprop :=
  repeat match goal with
  | H : _ && _ = true |- _ => apply andb_true_iff in H; destruct H
  | H : _ || _ = false |- _ => apply orb_false_iff in H; destruct H
  | H : negb _ = true |- _ => apply negb_true_iff in H
  | H : negb _ = false |- _ => apply negb_false_iff in H
  | H : Qle_bool _ _ = true |- _ => apply Qle_bool_iff in H
  | H : Qle_bool _ _ = false |- _ => apply Qle_bool_false_iff in H
  | H : Qlt_bool _ _ = true |- _ => apply Qlt_bool_iff in H
  | H : Qlt_bool _ _ = false |- _ => apply Qlt_bool_false_iff in H
  | H : Qeq_bool _ _ = true |- _ => apply Qeq_bool_iff in H
  | H : Qeq_bool _ _ = false |- _ => apply Qeq_bool_false_iff in H
  end.

(** Decides a boolean rational test by cases, leaving arithmetic to [lra]. *)
Ltac qcase t := let E := fresh "E" in destruct t eqn:E; qprop.

(** ** Overlap test *)

Lemma bbox_overlap_sym (a b : Comp) : bbox_overlap a b = bbox_overlap b a.
Proof.
  unfold bbox_overlap. f_equal.
  destruct (Qle_bool (x a + w a) (x b)), (Qle_bool (x b + w b) (x a)),
           (Qle_bool (y a + h a) (y b)), (Qle_bool (y b + h b) (y a));
    reflexivity.
Qed.

Lemma bbox_overlap_true_iff (a b : Comp) :
  bbox_overlap a b = true <->
  x b < x a + w a /\ x a < x b + w b /\ y b < y a + h a /\ y a < y b + h b.
Proof.
  unfold bbox_overlap. rewrite negb_true_iff, !orb_false_iff.
  rewrite !Qle_bool_false_iff. tauto.
Qed.

Lemma checker_overlap_agrees (a b : Comp) :
  Checker.pair_overlap a b = bbox_overlap a b.
Proof. reflexivity. Qed.

(** C7: the overlap test is symmetric, and two rectangles that only touch
    (one ends exactly where the other starts, on either axis) are not
    overlapping; the inline test of the checker script is the same test. *)
Theorem bbox_overlap_symmetric_closed (a b : Comp) :
  bbox_overlap a b = bbox_overlap b a /\
  Checker.pair_overlap a b = Checker.pair_overlap b a /\
  (touching a b ->
   bbox_overlap a b = false /\ Checker.pair_overlap a b = false).
Proof.
  split; [apply bbox_overlap_sym|].
  split; [exact (bbox_overlap_sym a b)|].
  intro T. change (Checker.pair_overlap a b) with (bbox_overlap a b).
  assert (bbox_overlap a b = false) as E.
  { destruct (bbox_overlap a b) eqn:E; [|reflexivity].
    apply bbox_overlap_true_iff in E. unfold touching in T. lra. }
  auto.
Qed.

(** Two rectangles sharing the side [x = 5], and two sharing only the
    corner [(5, 5)]. *)
Lemma bbox_overlap_symmetric_closed_witness :
  (bbox_overlap (mkComp 0 0 5 5) (mkComp 5 0 5 5) = false /\
   Checker.pair_overlap (mkComp 0 0 5 5) (mkComp 5 0 5 5) = false) /\
  (bbox_overlap (mkComp 0 0 5 5) (mkComp 5 5 5 5) = false /\
   Checker.pair_overlap (mkComp 0 0 5 5) (mkComp 5 5 5 5) = false).
Proof.
  split.
  - apply (bbox_overlap_symmetric_closed (mkComp 0 0 5 5) (mkComp 5 0 5 5)).
    left. reflexivity.
  - apply (bbox_overlap_symmetric_closed (mkComp 0 0 5 5) (mkComp 5 5 5 5)).
    left. reflexivity.
Defined.

(** ** Keep-out zone *)

Lemma checker_zone_agrees (usb : Comp) :
  Checker.zone_of usb = compute_keepout_zone usb.
Proof. reflexivity. Qed.

(** C5: the keep-out zone is built for the first edge test that holds, in the
    order [y == 0], [y + h == H], [x == 0], otherwise the remaining edge, so
    the earlier test wins at a corner; whichever edge is selected, the zone
    satisfies [zone.w * zone.h == zone_w * zone_depth].  The zone derived
    inline by the checker script is the same rectangle. *)
Theorem keepout_zone_priority_and_area (usb : Comp) :
  let usb_cx := fst (center_of usb) in
  let usb_cy := snd (center_of usb) in
  let zone := compute_keepout_zone usb in
  (y usb == 0 ->
   zone = mkComp (usb_cx - ZONE_W / 2) 0 ZONE_W ZONE_DEPTH) /\
  (~ y usb == 0 -> y usb + h usb == BOARD_H ->
   zone = mkComp (usb_cx - ZONE_W / 2) (BOARD_H - ZONE_DEPTH) ZONE_W ZONE_DEPTH) /\
  (~ y usb == 0 -> ~ y usb + h usb == BOARD_H -> x usb == 0 ->
   zone = mkComp 0 (usb_cy - ZONE_W / 2) ZONE_DEPTH ZONE_W) /\
  (~ y usb == 0 -> ~ y usb + h usb == BOARD_H -> ~ x usb == 0 ->
   zone = mkComp (BOARD_W - ZONE_DEPTH) (usb_cy - ZONE_W / 2) ZONE_DEPTH ZONE_W) /\
  w zone * h zone == ZONE_W * ZONE_DEPTH /\
  Checker.zone_of usb = zone.
Proof.
  cbv zeta. unfold compute_keepout_zone.
  repeat split; intros;
    repeat match goal with
    | H : _ == _ |- _ => apply Qeq_bool_iff in H; rewrite H
    | H : ~ _ == _ |- _ => apply Qeq_bool_false_iff in H; rewrite H
    end; try reflexivity.
  destruct (Qeq_bool (y usb) 0); [reflexivity|].
  destruct (Qeq_bool (y usb + h usb) BOARD_H); [reflexivity|].
  destruct (Qeq_bool (x usb) 0); reflexivity.
Qed.

(** A connector in the corner [x = 0, y = 0] gets the zone of the [y == 0]
    edge, and one in the corner [x = 0, y + h = H] the zone of the
    [y + h == H] edge. *)
Lemma keepout_zone_priority_and_area_witness :
  compute_keepout_zone (mkComp 0 0 5 5) =
    mkComp (0 + 5 / 2 - ZONE_W / 2) 0 ZONE_W ZONE_DEPTH /\
  compute_keepout_zone (mkComp 0 45 5 5) =
    mkComp (0 + 5 / 2 - ZONE_W / 2) (BOARD_H - ZONE_DEPTH) ZONE_W ZONE_DEPTH.
Proof.
  split.
  - destruct (keepout_zone_priority_and_area (mkComp 0 0 5 5)) as (H1 & _).
    apply H1. reflexivity.
  - destruct (keepout_zone_priority_and_area (mkComp 0 45 5 5)) as (_ & H2 & _).
    apply H2.
    + simpl. intro H. discriminate H.
    + reflexivity.
Defined.

(** ** Deterministic seating *)

(** C2, as stated, fails: the connector is not seated at [y = 0]. *)
Lemma usb_not_seated_at_y0 :
  ~ (forall usb, get place_edge_components USB = Some usb ->
       x usb == (BOARD_W - w usb) / 2 /\ y usb == 0).
Proof.
  intro H.
  destruct (H (mkComp ((BOARD_W - 5) / 2) (BOARD_H - 5) 5 5) eq_refl) as [_ Hy].
  discriminate Hy.
Qed.

(** C2, amended: the seating stage centers the USB connector horizontally,
    [x = (W - w) / 2], on the board edge [y + h = H], that is at
    [y = H - h = 45]; the two MIKROBUS connectors sit at [x = 0] and
    [x + w = W] with the same [y]. *)
Theorem usb_seated_centered_on_far_edge :
  exists usb mb1 mb2,
    get place_edge_components USB = Some usb /\
    get place_edge_components MB1 = Some mb1 /\
    get place_edge_components MB2 = Some mb2 /\
    x usb == (BOARD_W - w usb) / 2 /\
    y usb == BOARD_H - h usb /\ y usb == 45 /\
    x mb1 == 0 /\ x mb2 + w mb2 == BOARD_W /\ y mb1 == y mb2.
Proof.
  do 3 eexists. repeat split; reflexivity.
Qed.

(** ** Contract of the validator *)

Lemma contains_get (p : Placement) (k : string) :
  contains p k = true -> exists c, get p k = Some c.
Proof.
  unfold contains. destruct (get p k) as [c|]; [eauto | discriminate].
Qed.

Lemma get_values_nonempty (p : Placement) (k : string) (c : Comp) :
  get p k = Some c -> values p <> [].
Proof. destruct p; [discriminate | intros _; discriminate]. Qed.

Lemma center_of_mass_total (cs : list Comp) :
  cs <> [] -> exists com, center_of_mass cs = Some com.
Proof.
  destruct cs as [|c cs]; [congruence | intros _].
  unfold center_of_mass. simpl map. eauto.
Qed.

Ltac in_keys := unfold required_keys; simpl; auto 6.

Lemma complete_forallb (p : Placement) :
  complete p <-> forallb (contains p) required_keys = true.
Proof.
  unfold complete. rewrite forallb_forall. reflexivity.
Qed.

Lemma incomplete_forallb (p : Placement) :
  incomplete p <-> forallb (contains p) required_keys = false.
Proof.
  unfold incomplete. split.
  - intros (k & Hin & Hk).
    destruct (forallb (contains p) required_keys) eqn:E; [|reflexivity].
    rewrite forallb_forall in E. rewrite (E k Hin) in Hk. discriminate.
  - intro E. simpl in E.
    destruct (contains p USB) eqn:E1; [|exists USB; split; [in_keys | assumption]].
    destruct (contains p MC) eqn:E2; [|exists MC; split; [in_keys | assumption]].
    destruct (contains p XTAL) eqn:E3; [|exists XTAL; split; [in_keys | assumption]].
    destruct (contains p MB1) eqn:E4; [|exists MB1; split; [in_keys | assumption]].
    destruct (contains p MB2) eqn:E5; [|exists MB2; split; [in_keys | assumption]].
    discriminate.
Qed.

Lemma all_on_edge_three (p : Placement) (usb mb1 mb2 : Comp) :
  get p USB = Some usb -> get p MB1 = Some mb1 -> get p MB2 = Some mb2 ->
  all_on_edge p edge_names = Some (touches usb && touches mb1 && touches mb2).
Proof.
  intros H1 H2 H3. unfold edge_names. cbn [all_on_edge].
  rewrite H1, H2, H3. unfold bind.
  destruct (touches usb), (touches mb1), (touches mb2); reflexivity.
Qed.

Lemma validate_full_complete (p : Placement) :
  complete p -> rules_contract p.
Proof.
  intro C. pose proof C as Call. apply complete_forallb in Call.
  destruct (contains_get p USB) as [usb Husb]; [apply C; in_keys|].
  destruct (contains_get p MC) as [micro Hmc]; [apply C; in_keys|].
  destruct (contains_get p XTAL) as [xtal Hxt]; [apply C; in_keys|].
  destruct (contains_get p MB1) as [mb1 Hmb1]; [apply C; in_keys|].
  destruct (contains_get p MB2) as [mb2 Hmb2]; [apply C; in_keys|].
  destruct (center_of_mass_total (values p)) as [com Hcom];
    [apply (get_values_nonempty _ _ _ Husb)|].
  exists usb, mb1, mb2, xtal, micro, com.
  repeat (split; [assumption|]).
  cbv zeta. unfold validate_full. rewrite Call. simpl negb. cbv iota.
  rewrite (all_on_edge_three p usb mb1 mb2 Husb Hmb1 Hmb2).
  rewrite Hmb1, Hmb2, Hxt, Hmc, Hcom, Husb. unfold bind. unfold all_ok.
  cbn [forallb fst snd].
  rewrite andb_true_r, !andb_assoc. reflexivity.
Qed.

(** C3: on a placement missing one of the five required names the validator
    returns invalid with the missing-component report and no rule results;
    on a placement holding all five it returns the seven rule entries, each
    a boolean computed from the placement alone together with its
    diagnostic, and the overall boolean is the conjunction of the seven. *)
Theorem validate_full_contract (p : Placement) :
  (incomplete p -> validate_full p = Some (false, Missing)) /\
  (complete p -> rules_contract p).
Proof.
  split.
  - intro I. apply incomplete_forallb in I.
    unfold validate_full. rewrite I. reflexivity.
  - apply validate_full_complete.
Qed.

Lemma validate_full_contract_witness :
  validate_full [(USB, mkComp 20 45 5 5)] = Some (false, Missing) /\
  rules_contract broken_placement.
Proof.
  split.
  - apply (validate_full_contract [(USB, mkComp 20 45 5 5)]).
    exists MC. split; [in_keys | reflexivity].
  - apply (validate_full_contract broken_placement).
    intros k Hk. simpl in Hk.
    repeat (destruct Hk as [<- | Hk]; [reflexivity|]). contradiction.
Defined.

(** ** The sample placement of the checker script *)

Lemma Q2R_inject_Z (z : Z) : Q2R (inject_Z z) = IZR z.
Proof. unfold Q2R, inject_Z. simpl. lra. Qed.

(** C4: on the sample placement both validators report pass for each of the
    seven rules, and the score is the one recomputed from the formula: the
    bounding box spans [0, 50] x [14, 50], the microcontroller center
    [(24.5, 24.5)] lies at distance [sqrt (1/2)] from the board center
    [(25, 25)], and the total is [1800 + 10 * sqrt (1/2)]. *)
Theorem sample_placement_valid_and_scored :
  (exists results,
     Checker.validate_placement Checker.sample_valid_placement =
       Some (true, Rules results) /\
     outcomes results = all_seven_pass) /\
  (exists results,
     validate_full Checker.sample_valid_placement = Some (true, Rules results) /\
     outcomes results = all_seven_pass) /\
  (exists s,
     Checker.score_placement Checker.sample_valid_placement = Some s /\
     compute_score Checker.sample_valid_placement = Some s /\
     bounding_box_area s == (50 - 0) * (50 - 14) /\
     centrality_sq s ==
       (49 / 2 - 25) * (49 / 2 - 25) + (49 / 2 - 25) * (49 / 2 - 25) /\
     Checker.total_score s =
       (Q2R (bounding_box_area s) +
        10 * Checker._distance (49 / 2, 49 / 2)%Q board_center)%R /\
     Checker.total_score s = (1800 + 10 * sqrt (1 / 2))%R /\
     total_score s = Checker.total_score s).
Proof.
  split; [|split].
  - eexists. split; [vm_compute; reflexivity | reflexivity].
  - eexists. split; [vm_compute; reflexivity | reflexivity].
  - eexists. split; [vm_compute; reflexivity|].
    split; [vm_compute; reflexivity|].
    split; [reflexivity|]. split; [reflexivity|].
    assert (forall q, q == 1 # 2 -> sqrt (Q2R q) = sqrt (1 / 2)) as Hs.
    { intros q Hq. rewrite (Qeq_eqR _ _ Hq). f_equal; unfold Q2R; simpl; lra. }
    unfold Checker.total_score, total_score, centrality_score, Checker._distance.
    cbn [bounding_box_area centrality_sq].
    rewrite !Hs by reflexivity.
    replace (Q2R 1800) with 1800%R by (unfold Q2R; simpl; lra).
    repeat split; lra.
Qed.

(** ** Segment against rectangle *)












(** ** Segments inside a rectangle *)





(** ** Distances and scores as real numbers *)

Section RealValues.
Local Open Scope R_scope.

Lemma sq_lt_inv (p q : R) : 0 <= q -> p * p < q * q -> p < q.
Proof. intros; nra. Qed.

Lemma sq_lt_mono (p q : R) : 0 <= p -> p < q -> p * p < q * q.
Proof. intros; nra. Qed.

Lemma sq_le_inv (p q : R) : 0 <= q -> p * p <= q * q -> p <= q.
Proof. intros; nra. Qed.

Lemma surd_lt_pos (u v D : R) :
  0 <= u -> 0 <= v -> 0 < D ->
  let E := u * u + v * v - D * D in
  (u - v < D <-> (u * u <= v * v \/ E < 0 \/ E * E < 4 * (u * u) * (v * v))).
Proof.
  intros Hu Hv HD E. subst E.
  assert (0 <= u * v) as Huv by nra.
  replace (4 * (u * u) * (v * v)) with ((2 * (u * v)) * (2 * (u * v))) by ring.
  split.
  - intro H. destruct (Rle_lt_dec u v) as [L|L].
    + left. nra.
    + destruct (Rlt_le_dec (u * u + v * v - D * D) 0) as [N|N]; [auto|].
      right; right.
      assert ((u - v) * (u - v) < D * D) by (apply sq_lt_mono; lra).
      apply sq_lt_mono; lra.
  - intros [H|[H|H]].
    + assert (u <= v) by (apply sq_le_inv; assumption). lra.
    + apply sq_lt_inv; lra.
    + apply sq_lt_inv in H; [|lra].
      apply sq_lt_inv; lra.
Qed.

Lemma surd_lt_nonpos (u v D : R) :
  0 <= u -> 0 <= v -> D <= 0 ->
  let E := u * u + v * v - D * D in
  (u - v < D <-> (u * u < v * v /\ 0 < E /\ 4 * (u * u) * (v * v) < E * E)).
Proof.
  intros Hu Hv HD E. subst E.
  assert (0 <= u * v) as Huv by nra.
  replace (4 * (u * u) * (v * v)) with ((2 * (u * v)) * (2 * (u * v))) by ring.
  split.
  - intro H.
    assert ((- D) * (- D) < (v - u) * (v - u)) by (apply sq_lt_mono; lra).
    split; [nra|]. split; [lra|].
    apply sq_lt_mono; lra.
  - intros (H1 & H2 & H3).
    assert (u < v) by (apply sq_lt_inv; assumption).
    apply sq_lt_inv in H3; [|lra].
    assert (- D < v - u); [|lra].
    apply sq_lt_inv; lra.
Qed.

Lemma Qlt_bool_R (p q : Q) : Qlt_bool p q = true <-> Q2R p < Q2R q.
Proof.
  rewrite Qlt_bool_iff. split; [apply Qlt_Rlt | apply Rlt_Qlt].
Qed.

Lemma Qle_bool_R (p q : Q) : Qle_bool p q = true <-> Q2R p <= Q2R q.
Proof.
  rewrite Qle_bool_iff. split; [apply Qle_Rle | apply Rle_Qle].
Qed.

Lemma Q2R_nonneg (q : Q) : (0 <= q)%Q -> 0 <= Q2R q.
Proof. intro H. apply Qle_Rle in H. rewrite RMicromega.Q2R_0 in H. exact H. Qed.

Lemma Q2R_tenth (q : Q) : Q2R (q / 10) = Q2R q / 10.
Proof.
  rewrite Q2R_div by discriminate. f_equal. unfold Q2R. simpl. lra.
Qed.

(** [surd_ltb] decides the comparison of the real values. *)
Lemma surd_ltb_spec (a s b t : Q) :
  (0 <= s)%Q -> (0 <= t)%Q ->
  (surd_ltb a s b t = true <->
   Q2R a + 10 * sqrt (Q2R s) < Q2R b + 10 * sqrt (Q2R t)).
Proof.
  intros Hs Ht. apply Q2R_nonneg in Hs, Ht.
  pose proof (sqrt_pos (Q2R s)) as Hu. pose proof (sqrt_pos (Q2R t)) as Hv.
  pose proof (sqrt_sqrt _ Hs) as Us. pose proof (sqrt_sqrt _ Ht) as Vt.
  set (u := sqrt (Q2R s)) in *. set (v := sqrt (Q2R t)) in *.
  assert (Q2R 4 = 4) as Q4 by (unfold Q2R; simpl; lra).
  unfold surd_ltb.
  destruct (Qlt_bool 0 ((b - a) / 10)) eqn:D.
  - apply Qlt_bool_R in D.
    rewrite RMicromega.Q2R_0, Q2R_tenth, Q2R_minus in D.
    rewrite !orb_true_iff, Qle_bool_R, !Qlt_bool_R.
    rewrite !Q2R_mult, !Q2R_minus, !Q2R_plus, !Q2R_mult, !Q2R_tenth,
      !Q2R_minus, RMicromega.Q2R_0, Q4, <- Us, <- Vt.
    destruct (surd_lt_pos u v ((Q2R b - Q2R a) / 10) Hu Hv D) as [P1 P2].
    cbv zeta in P1, P2. split; intro H.
    + assert (u - v < (Q2R b - Q2R a) / 10); [|lra].
      apply P2. destruct H as [[H|H]|H];
        [left | right; left | right; right]; lra.
    + assert (u - v < (Q2R b - Q2R a) / 10) as H' by lra.
      destruct (P1 H') as [H0|[H0|H0]];
        [left; left | left; right | right]; lra.
  - apply Qlt_bool_false_iff, Qle_Rle in D.
    rewrite RMicromega.Q2R_0, Q2R_tenth, Q2R_minus in D.
    rewrite !andb_true_iff, !Qlt_bool_R.
    rewrite !Q2R_mult, !Q2R_minus, !Q2R_plus, !Q2R_mult, !Q2R_tenth,
      !Q2R_minus, RMicromega.Q2R_0, Q4, <- Us, <- Vt.
    destruct (surd_lt_nonpos u v ((Q2R b - Q2R a) / 10) Hu Hv D) as [P1 P2].
    cbv zeta in P1, P2. split; intro H.
    + assert (u - v < (Q2R b - Q2R a) / 10); [|lra].
      apply P2. destruct H as ((H1 & H2) & H3). repeat split; lra.
    + assert (u - v < (Q2R b - Q2R a) / 10) as H' by lra.
      destruct (P1 H') as (H1 & H2 & H3). repeat split; lra.
Qed.

Lemma Qsquare_nonneg (q : Q) : (0 <= q * q)%Q.
Proof.
  destruct (Qlt_le_dec q 0) as [N|N].
  - setoid_replace (q * q)%Q with ((- q) * (- q))%Q by ring.
    apply Qmult_le_0_compat; lra.
  - apply Qmult_le_0_compat; assumption.
Qed.

Lemma dist_sq_nonneg (a b : Point) : (0 <= dist_sq a b)%Q.
Proof.
  unfold dist_sq.
  pose proof (Qsquare_nonneg (fst a - fst b)).
  pose proof (Qsquare_nonneg (snd a - snd b)). lra.
Qed.


End RealValues.

Lemma score_ltb_spec (s1 s2 : Score) :
  0 <= centrality_sq s1 -> 0 <= centrality_sq s2 ->
  (score_ltb s1 s2 = true <-> (total_score s1 < total_score s2)%R).
Proof.
  intros H1 H2. unfold score_ltb, total_score, centrality_score.
  apply surd_ltb_spec; assumption.
Qed.

(** ** Bounding box and monotonicity of the score *)

Lemma min2_le_l (a b : Q) : min2 a b <= a.
Proof. unfold min2. qcase (Qlt_bool b a); lra. Qed.

Lemma min2_le_r (a b : Q) : min2 a b <= b.
Proof. unfold min2. qcase (Qlt_bool b a); lra. Qed.

Lemma max2_ge_l (a b : Q) : a <= max2 a b.
Proof. unfold max2. qcase (Qlt_bool a b); lra. Qed.

Lemma max2_ge_r (a b : Q) : b <= max2 a b.
Proof. unfold max2. qcase (Qlt_bool a b); lra. Qed.

Lemma fold_min2_le (l : list Q) (a : Q) :
  fold_left min2 l a <= a /\ forall v, In v l -> fold_left min2 l a <= v.
Proof.
  revert a. induction l as [|b l IH]; intro a; simpl.
  - split; [lra | contradiction].
  - destruct (IH (min2 a b)) as [I1 I2].
    pose proof (min2_le_l a b). pose proof (min2_le_r a b).
    split; [lra|]. intros v [<-|Hv]; [lra | auto].
Qed.

Lemma fold_max2_ge (l : list Q) (a : Q) :
  a <= fold_left max2 l a /\ forall v, In v l -> v <= fold_left max2 l a.
Proof.
  revert a. induction l as [|b l IH]; intro a; simpl.
  - split; [lra | contradiction].
  - destruct (IH (max2 a b)) as [I1 I2].
    pose proof (max2_ge_l a b). pose proof (max2_ge_r a b).
    split; [lra|]. intros v [<-|Hv]; [lra | auto].
Qed.

Lemma min_of_le (l : list Q) (m v : Q) :
  min_of l = Some m -> In v l -> m <= v.
Proof.
  destruct l as [|a l]; [discriminate|]. simpl. intros [= <-] [<-|Hv].
  - apply (proj1 (fold_min2_le l a)).
  - apply (proj2 (fold_min2_le l a)); assumption.
Qed.

Lemma max_of_ge (l : list Q) (m v : Q) :
  max_of l = Some m -> In v l -> v <= m.
Proof.
  destruct l as [|a l]; [discriminate|]. simpl. intros [= <-] [<-|Hv].
  - apply (proj1 (fold_max2_ge l a)).
  - apply (proj2 (fold_max2_ge l a)); assumption.
Qed.

Lemma bounding_box_encloses (p : Placement) (c : Comp)
    (min_x max_x min_y max_y : Q) :
  bounding_box p = Some (min_x, max_x, min_y, max_y) -> In c (values p) ->
  min_x <= x c /\ x c + w c <= max_x /\ min_y <= y c /\ y c + h c <= max_y.
Proof.
  unfold bounding_box. intros B Hc.
  destruct (min_of (map x (values p))) as [a|] eqn:E1; [|discriminate].
  destruct (max_of (map (fun c => x c + w c) (values p))) as [b|] eqn:E2;
    [|discriminate].
  destruct (min_of (map y (values p))) as [c'|] eqn:E3; [|discriminate].
  destruct (max_of (map (fun c => y c + h c) (values p))) as [d|] eqn:E4;
    [|discriminate].
  simpl in B. injection B as <- <- <- <-.
  repeat split.
  - apply (min_of_le _ _ _ E1). apply (in_map x _ _ Hc).
  - apply (max_of_ge _ _ _ E2). apply (in_map (fun c => x c + w c) _ _ Hc).
  - apply (min_of_le _ _ _ E3). apply (in_map y _ _ Hc).
  - apply (max_of_ge _ _ _ E4). apply (in_map (fun c => y c + h c) _ _ Hc).
Qed.






(** ** The search engine *)

Lemma get_set_item_same (p : Placement) (k : string) (c : Comp) :
  get (set_item p k c) k = Some c.
Proof.
  induction p as [|[k' c'] p IH]; simpl.
  - rewrite String.eqb_refl. reflexivity.
  - destruct (String.eqb k k') eqn:E; simpl; rewrite E; [reflexivity | exact IH].
Qed.

Lemma get_set_item_other (p : Placement) (k k' : string) (c : Comp) :
  String.eqb k' k = false -> get (set_item p k c) k' = get p k'.
Proof.
  intro N. induction p as [|[k0 c0] p IH]; simpl.
  - rewrite N. reflexivity.
  - destruct (String.eqb k k0) eqn:E; simpl.
    + apply String.eqb_eq in E. subst k0. rewrite N. reflexivity.
    + destruct (String.eqb k' k0); [reflexivity | exact IH].
Qed.

Lemma set_item_nonempty (p : Placement) (k : string) (c : Comp) :
  set_item p k c <> [].
Proof.
  destruct p as [|[k' c'] p]; simpl; [discriminate|].
  destruct (String.eqb k k'); discriminate.
Qed.

Lemma get_assemble_xtal (base : Placement) (mc xt : Comp) :
  get (assemble base mc xt) XTAL = Some xt.
Proof. apply get_set_item_same. Qed.

Lemma get_assemble_mc (base : Placement) (mc xt : Comp) :
  get (assemble base mc xt) MC = Some mc.
Proof.
  unfold assemble. rewrite get_set_item_other by reflexivity.
  apply get_set_item_same.
Qed.

Lemma min_of_total (l : list Q) : l <> [] -> exists m, min_of l = Some m.
Proof. destruct l; [congruence | simpl; eauto]. Qed.

Lemma max_of_total (l : list Q) : l <> [] -> exists m, max_of l = Some m.
Proof. destruct l; [congruence | simpl; eauto]. Qed.

Lemma map_nonempty {A B : Type} (f : A -> B) (l : list A) :
  l <> [] -> map f l <> [].
Proof. destruct l; [congruence | discriminate]. Qed.

Lemma compute_score_total (p : Placement) (micro : Comp) :
  get p MC = Some micro -> exists s, compute_score p = Some s.
Proof.
  intro M. pose proof (get_values_nonempty _ _ _ M) as N.
  unfold compute_score.
  destruct (min_of_total (map x (values p))) as [a ->];
    [apply map_nonempty, N|].
  destruct (max_of_total (map (fun c => x c + w c) (values p))) as [b ->];
    [apply map_nonempty, N|].
  destruct (min_of_total (map y (values p))) as [c ->];
    [apply map_nonempty, N|].
  destruct (max_of_total (map (fun c => y c + h c) (values p))) as [d ->];
    [apply map_nonempty, N|].
  rewrite M. simpl. eauto.
Qed.

Lemma assemble_values_nonempty (base : Placement) (mc xt : Comp) :
  values (assemble base mc xt) <> [].
Proof.
  apply (get_values_nonempty _ XTAL xt), get_assemble_xtal.
Qed.

(** One crystal cell never raises, and updates [best] with the candidate
    of the cell. *)
Lemma try_crystal_step (base : Placement) (zone mc : Comp) (cx cy : Z)
    (best : Best) :
  try_crystal base zone mc cx cy best =
    Some (consider best (candidate base zone mc cx cy)).
Proof.
  unfold try_crystal, candidate, passes. cbv zeta.
  fold (crystal_at cx cy). fold (assemble base mc (crystal_at cx cy)).
  set (xt := crystal_at cx cy). set (P := assemble base mc xt).
  destruct (dist_leb (center_of mc) (center_of xt) PROXIMITY_RADIUS);
    [|reflexivity].
  destruct (in_bounds xt); [|reflexivity].
  destruct (existsb (bbox_overlap xt) (values base)); [reflexivity|].
  destruct (bbox_overlap xt mc); [reflexivity|].
  destruct (center_of_mass_total (values P)) as [com ->];
    [apply assemble_values_nonempty|].
  cbn [bind negb andb].
  destruct (dist_leb com board_center CENTER_OF_MASS_RADIUS); [|reflexivity].
  unfold P at 1 2. rewrite get_assemble_xtal, get_assemble_mc. fold P.
  cbn [bind negb andb].
  destruct (line_intersects_rect (center_of xt) (center_of mc) zone);
    [reflexivity|].
  destruct (any_overlap bbox_overlap (values P)); [reflexivity|].
  destruct (compute_score_total P mc) as [s ->];
    [apply get_assemble_mc|].
  cbn [bind negb andb consider snd]. unfold keep_better. cbn [snd].
  destruct (better s best); reflexivity.
Qed.

Section SearchInvariant.

Variable Phi : Placement * Score -> Prop.
Variable expired : Clock.
Variable base : Placement.
Variable zone : Comp.

Lemma consider_sat (best : Best) (c : option (Placement * Score)) :
  best_sat Phi best -> (forall c', c = Some c' -> Phi c') ->
  best_sat Phi (consider best c).
Proof.
  intros Hb Hc. destruct c as [c'|]; [|exact Hb].
  unfold consider, keep_better. destruct (better (snd c') best); [|exact Hb].
  apply Hc. reflexivity.
Qed.

Lemma loop_cy_sat (mc : Comp) (cx : Z) (cys : list Z) (best : Best) :
  (forall cy c, candidate base zone mc cx cy = Some c -> Phi c) ->
  best_sat Phi best ->
  exists best', loop_cy base zone mc cx cys best = Some best' /\
                best_sat Phi best'.
Proof.
  intro Hc. revert best. induction cys as [|cy cys IH]; intros best Hb.
  - exists best. split; [reflexivity | exact Hb].
  - cbn [loop_cy]. rewrite try_crystal_step. cbn [bind].
    apply IH. apply consider_sat; [exact Hb | apply Hc].
Qed.

Lemma loop_cx_sat (mc : Comp) (cxs cys : list Z) (best : Best) (n : nat) :
  (forall cx cy c, candidate base zone mc cx cy = Some c -> Phi c) ->
  best_sat Phi best ->
  exists best' n', loop_cx expired base zone mc cxs cys best n = Some (best', n') /\
                   best_sat Phi best'.
Proof.
  intro Hc. revert best n. induction cxs as [|cx cxs IH]; intros best n Hb.
  - exists best, n. split; [reflexivity | exact Hb].
  - cbn [loop_cx]. destruct (expired n).
    + exists best, (S n). split; [reflexivity | exact Hb].
    + destruct (loop_cy_sat mc cx cys best (Hc cx) Hb) as (best' & -> & Hb').
      cbn [bind]. apply IH. exact Hb'.
Qed.

Lemma loop_mc_sat (cells : list (Z * Z)) (best : Best) (n : nat) :
  (forall mx my cx cy c, In (mx, my) cells ->
     candidate base zone (micro_at mx my) cx cy = Some c -> Phi c) ->
  best_sat Phi best ->
  exists best' n', loop_mc expired base zone cells best n = Some (best', n') /\
                   best_sat Phi best'.
Proof.
  revert best n. induction cells as [|[mx my] cells IH]; intros best n Hc Hb.
  - exists best, n. split; [reflexivity | exact Hb].
  - cbn [loop_mc]. destruct (expired n).
    + exists best, (S n). split; [reflexivity | exact Hb].
    + fold (micro_at mx my).
      assert (forall mx' my' cx cy c, In (mx', my') cells ->
                candidate base zone (micro_at mx' my') cx cy = Some c -> Phi c)
        as Hc' by (intros; eapply Hc; [right; eassumption | eassumption]).
      destruct (existsb (bbox_overlap (micro_at mx my)) (values base)).
      * apply IH; assumption.
      * cbv zeta.
        match goal with
        | |- context [loop_cx expired base zone ?m ?xs ?ys best (S n)] =>
            destruct (loop_cx_sat m xs ys best (S n)) as (b' & n' & -> & Hb')
        end.
        { intros cx cy c. apply (Hc mx my). left. reflexivity. }
        { exact Hb. }
        cbn [bind fst snd]. apply IH; assumption.
Qed.

End SearchInvariant.

Lemma seated_base :
  place_edge_components = [(MB1, MB1_SEAT); (MB2, MB2_SEAT); (USB, USB_SEAT)].
Proof. reflexivity. Qed.

Lemma assemble_seated (mc xt : Comp) :
  assemble place_edge_components mc xt =
    [(MB1, MB1_SEAT); (MB2, MB2_SEAT); (USB, USB_SEAT); (MC, mc); (XTAL, xt)].
Proof. reflexivity. Qed.

Lemma dist_leb_sym (a b : Point) (r : Q) : dist_leb a b r = dist_leb b a r.
Proof.
  unfold dist_leb.
  assert (dist_sq a b == dist_sq b a) as E by (unfold dist_sq; ring).
  destruct (Qle_bool (dist_sq b a) (r * r)) eqn:H.
  - apply Qle_bool_iff. apply Qle_bool_iff in H. rewrite E. exact H.
  - apply Qle_bool_false_iff. apply Qle_bool_false_iff in H. rewrite E. exact H.
Qed.

Lemma positions_in_bounds (mx my : Z) :
  In (mx, my) (prioritized_positions default_center) ->
  in_bounds (micro_at mx my) = true.
Proof.
  assert (forallb (fun c => in_bounds (micro_at (fst c) (snd c)))
            (prioritized_positions default_center) = true) as H
    by (vm_compute; reflexivity).
  rewrite forallb_forall in H. intro Hin. apply (H (mx, my) Hin).
Qed.

(** A candidate built on the seated connectors, with the microcontroller on
    the board, passes the validator. *)
Lemma candidate_valid (mc : Comp) (cx cy : Z) (c : Placement * Score) :
  in_bounds mc = true ->
  candidate place_edge_components SEAT_ZONE mc cx cy = Some c ->
  passes_validator c.
Proof.
  intros Hmc. unfold candidate.
  set (xt := crystal_at cx cy).
  destruct (passes place_edge_components SEAT_ZONE mc xt) eqn:Hp; [|discriminate].
  destruct (compute_score (assemble place_edge_components mc xt)) as [s|];
    [|discriminate].
  intros [= <-]. unfold passes in Hp.
  rewrite !andb_true_iff in Hp.
  destruct Hp as ((((((T1 & T2) & T3) & T4) & T5) & T6) & T7).
  assert (complete (assemble place_edge_components mc xt)) as C.
  { intros k Hk. unfold required_keys in Hk. simpl in Hk.
    repeat (destruct Hk as [<- | Hk]; [reflexivity|]). contradiction. }
  destruct (validate_full_complete _ C)
    as (usb & mb1 & mb2 & xtal & micro & com & Hu & H1 & H2 & Hx & Hm & Hcom & V).
  rewrite assemble_seated in Hu, H1, H2, Hx, Hm.
  injection Hu as <-. injection H1 as <-. injection H2 as <-.
  injection Hx as <-. injection Hm as <-.
  rewrite Hcom in T5. cbv zeta in V.
  rewrite (dist_leb_sym (center_of xt) (center_of mc)), T1, T5 in V.
  fold SEAT_ZONE in V. rewrite T6, T7 in V.
  assert (forallb in_bounds (values (assemble place_edge_components mc xt)) = true)
    as B.
  { rewrite assemble_seated. cbn [values map snd forallb].
    rewrite Hmc, T2. reflexivity. }
  rewrite B in V.
  assert (touches USB_SEAT && touches MB1_SEAT && touches MB2_SEAT = true) as E
    by reflexivity.
  assert (is_parallel MB1_SEAT MB2_SEAT = true) as Par by reflexivity.
  rewrite E, Par in V. cbn [andb] in V.
  eexists. split; [exact V | reflexivity].
Qed.

Lemma find_solution_unfold (expired : Clock) :
  find_solution expired =
    (st <- loop_mc expired place_edge_components SEAT_ZONE
             (prioritized_positions default_center) None 0 ;;
     Some (fst st)).
Proof. reflexivity. Qed.

Lemma find_solution_sat (expired : Clock) :
  exists best, find_solution expired = Some best /\
               best_sat passes_validator best.
Proof.
  rewrite find_solution_unfold.
  destruct (loop_mc_sat passes_validator expired place_edge_components SEAT_ZONE
              (prioritized_positions default_center) None 0)
    as (best & n & -> & Hb).
  - intros mx my cx cy c Hin. apply candidate_valid.
    apply positions_in_bounds. exact Hin.
  - exact I.
  - exists best. split; [reflexivity | exact Hb].
Qed.

(** C1: whatever the clock does, a placement returned by the search engine
    passes the validator: the overall result is true and each of the seven
    rules passes. *)
Theorem find_solution_passes_validator
    (expired : Clock) (p : Placement) (s : Score) :
  find_solution expired = Some (Some (p, s)) ->
  exists results,
    validate_full p = Some (true, Rules results) /\
    outcomes results = all_seven_pass.
Proof.
  intro H. destruct (find_solution_sat expired) as (best & E & Hb).
  rewrite H in E. injection E as <-. exact Hb.
Qed.

Lemma find_solution_passes_validator_witness :
  exists results,
    validate_full
      [ (MB1, MB1_SEAT); (MB2, MB2_SEAT); (USB, USB_SEAT);
        (MC, mkComp 25 25 5 5); (XTAL, mkComp 17 19 5 5) ] =
      Some (true, Rules results) /\
    outcomes results = all_seven_pass.
Proof.
  eapply (find_solution_passes_validator fourth_poll).
  vm_compute. reflexivity.
Defined.

(** ** Exhaustive search *)

Lemma loop_cy_fold (base : Placement) (zone mc : Comp) (cx : Z)
    (cys : list Z) (best : Best) :
  loop_cy base zone mc cx cys best =
    Some (fold_left consider (map (candidate base zone mc cx) cys) best).
Proof.
  revert best. induction cys as [|cy cys IH]; intro best; [reflexivity|].
  cbn [loop_cy map fold_left]. rewrite try_crystal_step. cbn [bind]. apply IH.
Qed.

Lemma loop_cx_never (base : Placement) (zone mc : Comp) (cxs cys : list Z)
    (best : Best) (n : nat) :
  loop_cx never base zone mc cxs cys best n =
    Some (fold_left consider
            (flat_map (fun cx => map (candidate base zone mc cx) cys) cxs) best,
          (n + List.length cxs)%nat).
Proof.
  revert best n. induction cxs as [|cx cxs IH]; intros best n.
  - cbn. rewrite Nat.add_0_r. reflexivity.
  - cbn [loop_cx flat_map List.length]. unfold never at 1.
    rewrite loop_cy_fold. cbn [bind]. rewrite IH, fold_left_app.
    do 2 f_equal. lia.
Qed.

Lemma list_sum_cons (a : nat) (l : list nat) :
  list_sum (a :: l) = (a + list_sum l)%nat.
Proof. reflexivity. Qed.

Lemma loop_mc_never (base : Placement) (zone : Comp) (cells : list (Z * Z))
    (best : Best) (n : nat) :
  loop_mc never base zone cells best n =
    Some (fold_left consider (flat_map (cell_candidates base zone) cells) best,
          (n + list_sum (map (cell_polls base) cells))%nat).
Proof.
  revert best n. induction cells as [|[mx my] cells IH]; intros best n.
  - cbn. rewrite Nat.add_0_r. reflexivity.
  - cbn [loop_mc flat_map map list_sum]. unfold never at 1.
    unfold cell_candidates at 1, cell_polls at 1. cbn [fst snd].
    fold (micro_at mx my).
    destruct (existsb (bbox_overlap (micro_at mx my)) (values base)).
    + rewrite IH. cbn [app]. rewrite list_sum_cons. do 2 f_equal. lia.
    + cbv zeta. fold (crystal_cols (micro_at mx my)).
      fold (crystal_rows (micro_at mx my)).
      rewrite loop_cx_never. cbn [bind fst snd].
      rewrite IH, fold_left_app, list_sum_cons. do 2 f_equal. lia.
Qed.

Lemma range_length (lo hi : Z) : List.length (range lo hi) = Z.to_nat (hi - lo).
Proof. unfold range. rewrite length_map, length_seq. reflexivity. Qed.

Lemma crystal_range_bounded (mc : Comp) :
  (List.length (crystal_cols mc) <= 46)%nat /\
  (List.length (crystal_rows mc) <= 46)%nat.
Proof.
  unfold crystal_cols, crystal_rows. rewrite !range_length.
  change (fst BOARD_DIMS - fst (SIZES XTAL))%Z with 45%Z.
  change (snd BOARD_DIMS - snd (SIZES XTAL))%Z with 45%Z.
  split; lia.
Qed.

Lemma cell_polls_bounded (base : Placement) (cell : Z * Z) :
  (cell_polls base cell <= 47)%nat.
Proof.
  unfold cell_polls. cbv zeta.
  destruct (existsb _ _); [lia|].
  pose proof (crystal_range_bounded (micro_at (fst cell) (snd cell))). lia.
Qed.

Lemma polls_bounded (base : Placement) (cells : list (Z * Z)) :
  (list_sum (map (cell_polls base) cells) <= 47 * List.length cells)%nat.
Proof.
  induction cells as [|c cells IH]; cbn [map List.length];
    [cbn; lia | rewrite list_sum_cons].
  pose proof (cell_polls_bounded base c). lia.
Qed.

Lemma fold_consider_accepted (l : list (option (Placement * Score)))
    (best : Best) :
  fold_left consider l best = fold_left keep_better (accepted l) best.
Proof.
  revert best. induction l as [|[c|] l IH]; intro best; [reflexivity| |].
  - cbn [fold_left accepted flat_map app consider]. apply IH.
  - cbn [fold_left accepted flat_map app consider]. apply IH.
Qed.

Lemma compute_score_nonneg (p : Placement) (s : Score) :
  compute_score p = Some s -> 0 <= centrality_sq s.
Proof.
  unfold compute_score.
  destruct (min_of (map x (values p))); [|discriminate].
  destruct (max_of (map (fun c => x c + w c) (values p))); [|discriminate].
  destruct (min_of (map y (values p))); [|discriminate].
  destruct (max_of (map (fun c => y c + h c) (values p))); [|discriminate].
  destruct (get p MC); [|discriminate].
  cbn [bind]. intros [= <-]. apply dist_sq_nonneg.
Qed.

Lemma candidate_nonneg (base : Placement) (zone mc : Comp) (cx cy : Z)
    (c : Placement * Score) :
  candidate base zone mc cx cy = Some c -> score_nonneg c.
Proof.
  unfold candidate. destruct (passes _ _ _ _); [|discriminate].
  destruct (compute_score _) as [s|] eqn:E; [|discriminate].
  intros [= <-]. apply (compute_score_nonneg _ _ E).
Qed.

Lemma search_candidates_nonneg : Forall score_nonneg search_candidates.
Proof.
  apply Forall_forall. intros c Hc. unfold search_candidates, accepted in Hc.
  apply in_flat_map in Hc. destruct Hc as (o & Ho & Hc).
  destruct o as [c'|]; [|contradiction]. destruct Hc as [<-|[]].
  apply in_flat_map in Ho. destruct Ho as (cell & _ & Ho).
  unfold cell_candidates in Ho. cbv zeta in Ho.
  destruct (existsb _ _); [contradiction|].
  apply in_flat_map in Ho. destruct Ho as (cx & _ & Ho).
  apply in_map_iff in Ho. destruct Ho as (cy & Ho & _).
  apply (candidate_nonneg _ _ _ _ _ _ Ho).
Qed.

Lemma keep_better_some (b c : Placement * Score) :
  keep_better (Some b) c = if score_ltb (snd c) (snd b) then Some c else Some b.
Proof. unfold keep_better, better. destruct b. reflexivity. Qed.

(** Folding [keep_better] from an incumbent ends on a candidate of minimal
    total score. *)
Lemma fold_keep_better_min (l : list (Placement * Score)) (b : Placement * Score) :
  Forall score_nonneg l -> score_nonneg b ->
  exists r,
    fold_left keep_better l (Some b) = Some r /\ (r = b \/ In r l) /\
    (total_score (snd r) <= total_score (snd b))%R /\
    forall c, In c l -> (total_score (snd r) <= total_score (snd c))%R.
Proof.
  revert b. induction l as [|c l IH]; intros b Hl Hb.
  - exists b. repeat split; auto using Rle_refl. intros c [].
  - inversion Hl as [|c' l' Hc Hl']. subst c' l'.
    cbn [fold_left]. rewrite keep_better_some.
    pose proof (score_ltb_spec (snd c) (snd b) Hc Hb) as S.
    destruct (score_ltb (snd c) (snd b)).
    + assert (total_score (snd c) < total_score (snd b))%R as Lt
        by (apply S; reflexivity).
      destruct (IH c Hl' Hc) as (r & E & Hin & Le & Hmin).
      exists r. split; [exact E|].
      split; [right; destruct Hin as [->|Hin];
              [left; reflexivity | right; exact Hin]|].
      split; [lra|]. intros c0 [<-|H0]; [exact Le | apply Hmin, H0].
    + assert (~ (total_score (snd c) < total_score (snd b))%R) as Ge
        by (intro Lt; apply S in Lt; discriminate).
      destruct (IH b Hl' Hb) as (r & E & Hin & Le & Hmin).
      exists r. split; [exact E|].
      split; [destruct Hin as [->|Hin];
              [left; reflexivity | right; right; exact Hin]|].
      split; [exact Le|]. intros c0 [<-|H0]; [lra | apply Hmin, H0].
Qed.

(** Folding [keep_better] from no incumbent: nothing when there is no
    candidate, otherwise a candidate of minimal total score. *)
Lemma fold_keep_better_best (l : list (Placement * Score)) :
  Forall score_nonneg l ->
  match fold_left keep_better l None with
  | None => l = []
  | Some b =>
      In b l /\ forall c, In c l -> (total_score (snd b) <= total_score (snd c))%R
  end.
Proof.
  destruct l as [|c l]; intro Hl; [reflexivity|].
  inversion Hl as [|c' l' Hc Hl']. subst c' l'.
  cbn [fold_left]. change (keep_better None c) with (Some c).
  destruct (fold_keep_better_min l c Hl' Hc) as (r & -> & Hin & Le & Hmin).
  split.
  - destruct Hin as [->|Hin]; [left; reflexivity | right; exact Hin].
  - intros c0 [<-|H0]; [exact Le | apply Hmin, H0].
Qed.

Lemma positions_length :
  List.length (prioritized_positions default_center) = 2116%nat.
Proof. vm_compute. reflexivity. Qed.

(** The center cell with the crystal at [(17, 19)] is accepted. *)
Lemma search_candidates_nonempty : search_candidates <> [].
Proof.
  assert (exists c, candidate place_edge_components SEAT_ZONE
                      (micro_at 25 25) 17 19 = Some c) as [c Hc]
    by (eexists; vm_compute; reflexivity).
  assert (In c search_candidates) as Hin.
  { unfold search_candidates, accepted. apply in_flat_map.
    exists (Some c). split; [|left; reflexivity].
    apply in_flat_map. exists (25, 25)%Z. split; [left; reflexivity|].
    unfold cell_candidates. cbv zeta. cbn [fst snd].
    change (existsb (bbox_overlap (micro_at 25 25)) (values place_edge_components))
      with false. cbv iota.
    apply in_flat_map. exists 17%Z. split.
    - vm_compute. repeat first [left; reflexivity | right].
    - apply in_map_iff. exists 19%Z. split; [exact Hc|].
      vm_compute. repeat first [left; reflexivity | right]. }
  intro E. rewrite E in Hin. exact Hin.
Qed.

(** The run of the search under a deadline that never passes. *)
Lemma exhaustive_run :
  exists best polls,
    loop_mc never place_edge_components SEAT_ZONE
      (prioritized_positions default_center) None 0 = Some (best, polls) /\
    (polls <= 47 * 2116)%nat /\
    find_solution never = Some best /\
    best = fold_left keep_better search_candidates None /\
    match best with
    | None => search_candidates = []
    | Some b =>
        In b search_candidates /\
        forall c, In c search_candidates ->
                  (total_score (snd b) <= total_score (snd c))%R
    end.
Proof.
  pose proof (loop_mc_never place_edge_components SEAT_ZONE
                (prioritized_positions default_center) None 0) as Run.
  rewrite fold_consider_accepted in Run. fold search_candidates in Run.
  do 2 eexists. split; [exact Run|]. split.
  - pose proof (polls_bounded place_edge_components
                  (prioritized_positions default_center)) as B.
    rewrite positions_length in B. exact B.
  - split; [rewrite find_solution_unfold, Run; reflexivity|].
    split; [reflexivity|].
    apply fold_keep_better_best, search_candidates_nonneg.
Qed.

(** C8: the enumeration is finite.  The generator yields the center cell
    and the cells of the rings of radius 1 to 49, 2116 cells in all, and
    each crystal enumeration ranges over at most 46 columns and 46 rows.
    With a deadline that never passes the search runs through all of them
    without raising, after a bounded number of clock polls, and returns the
    best candidate found: one of the accepted candidates, of minimal total
    score, or the no-solution value when no candidate was accepted. *)
Theorem find_solution_exhausts :
  prioritized_positions default_center =
    (25, 25)%Z :: flat_map (ring 25 25) (range 1 50) /\
  List.length (prioritized_positions default_center) = 2116%nat /\
  (forall mc, (List.length (crystal_cols mc) <= 46)%nat /\
              (List.length (crystal_rows mc) <= 46)%nat) /\
  exists best polls,
    loop_mc never place_edge_components SEAT_ZONE
      (prioritized_positions default_center) None 0 = Some (best, polls) /\
    (polls <= 47 * 2116)%nat /\
    find_solution never = Some best /\
    best = fold_left keep_better search_candidates None /\
    match best with
    | None => search_candidates = []
    | Some b =>
        In b search_candidates /\
        forall c, In c search_candidates ->
                  (total_score (snd b) <= total_score (snd c))%R
    end.
Proof.
  split; [reflexivity|]. split; [exact positions_length|].
  split; [apply crystal_range_bounded|].
  exact exhaustive_run.
Qed.

(** On this board the exhaustive search does return a placement. *)
Lemma find_solution_never_finds :
  exists p s, find_solution never = Some (Some (p, s)).
Proof.
  destruct exhaustive_run as (best & polls & _ & _ & E & _ & H).
  destruct best as [[p s]|].
  - exists p, s. exact E.
  - exfalso. apply search_candidates_nonempty. exact H.
Qed.

(** * Further properties of the code *)

(** ** The two validators and the two scorers *)

















(** ** Meaning of the rules *)

Lemma in_bounds_iff (c : Comp) : in_bounds c = true <-> inside_board c.
Proof.
  unfold in_bounds, inside_board.
  rewrite !andb_true_iff, !Qle_bool_iff. tauto.
Qed.






Lemma rules_of_complete (p : Placement) :
  complete p ->
  exists usb mb1 mb2 xtal micro com ok results,
    get p USB = Some usb /\ get p MB1 = Some mb1 /\ get p MB2 = Some mb2 /\
    get p XTAL = Some xtal /\ get p MC = Some micro /\
    center_of_mass (values p) = Some com /\
    validate_full p = Some (ok, Rules results) /\
    rule_outcome "Boundary Constraint" results =
      Some (forallb in_bounds (values p)) /\
    rule_outcome "No Overlapping" results =
      Some (negb (any_overlap bbox_overlap (values p))) /\
    rule_outcome "Edge Placement" results =
      Some (touches usb && touches mb1 && touches mb2) /\
    rule_outcome "Parallel Placement" results = Some (is_parallel mb1 mb2) /\
    rule_outcome "Proximity Constraint" results =
      Some (dist_leb (center_of xtal) (center_of micro) PROXIMITY_RADIUS) /\
    rule_outcome "Global Balance" results =
      Some (dist_leb com board_center CENTER_OF_MASS_RADIUS) /\
    rule_outcome "Keep-Out Zone" results =
      Some (negb (line_intersects_rect (center_of xtal) (center_of micro)
                    (compute_keepout_zone usb))).
Proof.
  intro C.
  destruct (validate_full_complete p C)
    as (usb & mb1 & mb2 & xtal & micro & com & Hu & H1 & H2 & Hx & Hm & Hcom & V).
  cbv zeta in V.
  exists usb, mb1, mb2, xtal, micro, com. do 2 eexists.
  repeat (split; [eassumption|]).
  repeat split; reflexivity.
Qed.





Lemma Qeq_bool_comm (a b : Q) : Qeq_bool a b = Qeq_bool b a.
Proof.
  destruct (Qeq_bool b a) eqn:E.
  - apply Qeq_bool_iff. apply Qeq_bool_iff in E. symmetry. exact E.
  - apply Qeq_bool_false_iff. apply Qeq_bool_false_iff in E.
    intro H. apply E. symmetry. exact H.
Qed.

Lemma is_parallel_touches (mb1 mb2 : Comp) :
  is_parallel mb1 mb2 = true -> touches mb1 = true /\ touches mb2 = true.
Proof.
  unfold is_parallel, touches. intro H.
  apply andb_true_iff in H. destruct H as [_ H].
  rewrite !orb_true_iff, !andb_true_iff in H. rewrite !orb_true_iff.
  intuition.
Qed.

Lemma is_parallel_sym (mb1 mb2 : Comp) :
  is_parallel mb1 mb2 = is_parallel mb2 mb1.
Proof.
  unfold is_parallel. rewrite (Qeq_bool_comm (w mb1) (w mb2)).
  destruct (Qeq_bool (w mb2) (w mb1)); [|reflexivity]. cbn [andb].
  destruct (Qeq_bool (x mb1) 0), (Qeq_bool (x mb2 + w mb2) BOARD_W),
           (Qeq_bool (x mb1 + w mb1) BOARD_W), (Qeq_bool (x mb2) 0),
           (Qeq_bool (y mb1) 0), (Qeq_bool (y mb2 + h mb2) BOARD_H),
           (Qeq_bool (y mb1 + h mb1) BOARD_H), (Qeq_bool (y mb2) 0);
    reflexivity.
Qed.

(** The parallel test does not depend on which connector comes first, and
    two connectors that pass it both touch a board edge: on a complete
    placement, when the Parallel Placement rule passes and the USB connector
    touches an edge, the Edge Placement rule passes too. *)
Theorem parallel_rule_implies_edges (p : Placement) :
  (forall mb1 mb2, is_parallel mb1 mb2 = is_parallel mb2 mb1) /\
  (forall mb1 mb2, is_parallel mb1 mb2 = true ->
                   touches mb1 = true /\ touches mb2 = true) /\
  (complete p ->
   exists usb ok results,
     get p USB = Some usb /\
     validate_full p = Some (ok, Rules results) /\
     (rule_outcome "Parallel Placement" results = Some true ->
      touches usb = true ->
      rule_outcome "Edge Placement" results = Some true)).
Proof.
  split; [apply is_parallel_sym|]. split; [apply is_parallel_touches|].
  intro C.
  destruct (rules_of_complete p C)
    as (usb & mb1 & mb2 & xtal & micro & com & ok & results & Hu & _ & _ & _
        & _ & _ & V & _ & _ & E & P & _).
  exists usb, ok, results. split; [exact Hu|]. split; [exact V|].
  rewrite E, P. intros [= Hp] Ht.
  destruct (is_parallel_touches _ _ Hp) as [T1 T2].
  rewrite Ht, T1, T2. reflexivity.
Qed.

Lemma parallel_rule_implies_edges_witness :
  touches (mkComp 0 15 5 15) = true /\ touches (mkComp 45 15 5 15) = true.
Proof.
  destruct (parallel_rule_implies_edges []) as (_ & H & _).
  apply H. reflexivity.
Defined.

(** ** Geometry of the keep-out zone *)


(** Names [t / 2] and records [2 * (t / 2) == t], for [lra]. *)
Ltac set_half t :=
  let v := fresh "half" in
  let E := fresh "E" in
  remember (t / 2) as v eqn:E in *;
  assert (2 * v == t) by (rewrite E; field);
  clear E.





(** ** Order of the endpoints in the segment test *)






(** ** The ring enumeration *)

Lemma in_range (lo hi i : Z) : In i (range lo hi) <-> (lo <= i < hi)%Z.
Proof.
  unfold range. rewrite in_map_iff. split.
  - intros (k & <- & Hk). apply in_seq in Hk. lia.
  - intro H. exists (Z.to_nat (i - lo)). split; [lia|].
    apply in_seq. lia.
Qed.

Lemma cell_ok_iff (px py : Z) :
  cell_ok px py = true <-> (0 <= px <= 45 /\ 0 <= py <= 45)%Z.
Proof.
  unfold cell_ok. cbv zeta.
  change (fst BOARD_DIMS - fst (SIZES MC))%Z with 45%Z.
  change (snd BOARD_DIMS - snd (SIZES MC))%Z with 45%Z.
  rewrite !andb_true_iff, !Z.leb_le. tauto.
Qed.

Lemma in_filtered_cell (px py : Z) (c : Z * Z) :
  In c (if cell_ok px py then [(px, py)] else []) <->
  c = (px, py) /\ cell_ok px py = true.
Proof.
  destruct (cell_ok px py); cbn [In]; intuition congruence.
Qed.

Lemma in_ring_rows (cx cy r : Z) (c : Z * Z) :
  In c (flat_map (fun dx =>
          flat_map (fun dy =>
            let px := (cx + dx)%Z in
            let py := (cy + dy)%Z in
            if cell_ok px py then [(px, py)] else [])
            [(- r)%Z; r])
          (range (- r) (r + 1))) <->
  exists dx dy, (- r <= dx <= r)%Z /\ (dy = - r \/ dy = r)%Z /\
                c = ((cx + dx)%Z, (cy + dy)%Z) /\
                cell_ok (cx + dx) (cy + dy) = true.
Proof.
  rewrite in_flat_map. split.
  - intros (dx & Hdx & H). apply in_range in Hdx.
    apply in_flat_map in H. destruct H as (dy & Hdy & H).
    cbv zeta in H. apply in_filtered_cell in H.
    exists dx, dy. split; [lia|]. split; [|exact H].
    cbn [In] in Hdy. intuition.
  - intros (dx & dy & Hdx & Hdy & H).
    exists dx. split; [apply in_range; lia|].
    apply in_flat_map. exists dy. split.
    + cbn [In]. intuition.
    + cbv zeta. apply in_filtered_cell. exact H.
Qed.

Lemma in_ring_columns (cx cy r : Z) (c : Z * Z) :
  In c (flat_map (fun dy =>
          flat_map (fun dx =>
            let px := (cx + dx)%Z in
            let py := (cy + dy)%Z in
            if cell_ok px py then [(px, py)] else [])
            [(- r)%Z; r])
          (range (- r + 1) r)) <->
  exists dx dy, (- r < dy < r)%Z /\ (dx = - r \/ dx = r)%Z /\
                c = ((cx + dx)%Z, (cy + dy)%Z) /\
                cell_ok (cx + dx) (cy + dy) = true.
Proof.
  rewrite in_flat_map. split.
  - intros (dy & Hdy & H). apply in_range in Hdy.
    apply in_flat_map in H. destruct H as (dx & Hdx & H).
    cbv zeta in H. apply in_filtered_cell in H.
    exists dx, dy. split; [lia|]. split; [|exact H].
    cbn [In] in Hdx. intuition.
  - intros (dx & dy & Hdy & Hdx & H).
    exists dy. split; [apply in_range; lia|].
    apply in_flat_map. exists dx. split.
    + cbn [In]. intuition.
    + cbv zeta. apply in_filtered_cell. exact H.
Qed.

Lemma in_ring (cx cy r : Z) (c : Z * Z) :
  (1 <= r)%Z ->
  (In c (ring cx cy r) <->
   cell_ok (fst c) (snd c) = true /\ ring_distance cx cy c = r).
Proof.
  intro Hr. unfold ring. rewrite in_app_iff, in_ring_rows, in_ring_columns.
  unfold ring_distance. split.
  - intros [(dx & dy & H1 & H2 & -> & Hok)|(dx & dy & H1 & H2 & -> & Hok)];
      cbn [fst snd]; (split; [exact Hok | lia]).
  - destruct c as [px py]. cbn [fst snd]. intros [Hok Hd].
    destruct (Z.eq_dec (Z.abs (py - cy)) r) as [E|E].
    + left. exists (px - cx)%Z, (py - cy)%Z.
      split; [lia|]. split; [lia|].
      replace (cx + (px - cx))%Z with px by lia.
      replace (cy + (py - cy))%Z with py by lia. auto.
    + right. exists (px - cx)%Z, (py - cy)%Z.
      split; [lia|]. split; [lia|].
      replace (cx + (px - cx))%Z with px by lia.
      replace (cy + (py - cy))%Z with py by lia. auto.
Qed.

Lemma in_positions (center : Point) (c : Z * Z) :
  In c (prioritized_positions center) <->
  c = (Qint (fst center), Qint (snd center)) \/
  (cell_ok (fst c) (snd c) = true /\
   (1 <= ring_distance (Qint (fst center)) (Qint (snd center)) c <= 49)%Z).
Proof.
  unfold prioritized_positions. cbv zeta.
  change (Z.max (fst BOARD_DIMS) (snd BOARD_DIMS)) with 50%Z.
  cbn [In]. rewrite in_flat_map. split.
  - intros [<-|(r & Hr & H)]; [left; reflexivity|].
    apply in_range in Hr. apply in_ring in H; [|lia].
    right. destruct H as [Hok Hd]. split; [exact Hok | lia].
  - intros [->|[Hok Hd]]; [left; reflexivity|].
    right. exists (ring_distance (Qint (fst center)) (Qint (snd center)) c).
    split; [apply in_range; lia|]. apply in_ring; [lia | auto].
Qed.

(** A ring of radius [r >= 1] around any center cell yields exactly the
    board cells at ring distance [r]; the generator yields the center cell
    and then exactly the board cells at ring distance 1 to 49. *)
Theorem ring_enumeration_cells (center : Point) (r : Z) (c : Z * Z) :
  ((1 <= r)%Z ->
   (In c (ring (Qint (fst center)) (Qint (snd center)) r) <->
    cell_ok (fst c) (snd c) = true /\
    ring_distance (Qint (fst center)) (Qint (snd center)) c = r)) /\
  (In c (prioritized_positions center) <->
   c = (Qint (fst center), Qint (snd center)) \/
   (cell_ok (fst c) (snd c) = true /\
    (1 <= ring_distance (Qint (fst center)) (Qint (snd center)) c <= 49)%Z)).
Proof.
  split; [apply in_ring | apply in_positions].
Qed.

Lemma ring_enumeration_cells_witness :
  In (24, 26)%Z (ring (Qint (fst default_center)) (Qint (snd default_center)) 1)
  <->
  cell_ok 24 26 = true /\
  ring_distance (Qint (fst default_center)) (Qint (snd default_center))
    (24, 26)%Z = 1%Z.
Proof.
  destruct (ring_enumeration_cells default_center 1 (24, 26)%Z) as [H _].
  apply H. lia.
Defined.

Lemma ring_ordered_sorted (cx cy : Z) (cells : list (Z * Z)) :
  ring_ordered cx cy cells = true ->
  StronglySorted
    (fun a b => (ring_distance cx cy a <= ring_distance cx cy b)%Z) cells.
Proof.
  intro H. apply Sorted_StronglySorted.
  - intros a b c Hab Hbc. lia.
  - induction cells as [|a cells IH]; [constructor|].
    destruct cells as [|b cells]; [repeat constructor|].
    cbn [ring_ordered] in H. apply andb_true_iff in H. destruct H as [H1 H2].
    constructor; [exact (IH H2)|]. constructor. apply Z.leb_le. exact H1.
Qed.

Lemma default_positions_cover (c : Z * Z) :
  In c (prioritized_positions default_center) <->
  cell_ok (fst c) (snd c) = true.
Proof.
  rewrite in_positions.
  change (Qint (fst default_center)) with 25%Z.
  change (Qint (snd default_center)) with 25%Z.
  unfold ring_distance. rewrite cell_ok_iff. destruct c as [px py].
  cbn [fst snd]. split.
  - intros [[= -> ->]|[H _]]; lia.
  - intro H.
    destruct (Z.eq_dec px 25) as [->|Nx], (Z.eq_dec py 25) as [->|Ny];
      [left; reflexivity | right; lia | right; lia | right; lia].
Qed.

Lemma grid_cells_nodup : NoDup grid_cells.
Proof.
  unfold grid_cells. apply NoDup_map_NoDup_ForallPairs; [|apply seq_NoDup].
  intros a b _ _ E.
  pose proof (f_equal fst E) as Hd. pose proof (f_equal snd E) as Hm.
  cbn [fst snd] in Hd, Hm. apply Nat2Z.inj in Hd, Hm.
  pose proof (Nat.div_mod_eq a 46). pose proof (Nat.div_mod_eq b 46). lia.
Qed.

Lemma grid_cells_ok (c : Z * Z) : In c grid_cells -> cell_ok (fst c) (snd c) = true.
Proof.
  unfold grid_cells. rewrite in_map_iff. intros (k & <- & Hk).
  apply in_seq in Hk. cbn [fst snd]. apply cell_ok_iff.
  assert (k / 46 < 46)%nat by (apply Nat.Div0.div_lt_upper_bound; lia).
  pose proof (Nat.mod_upper_bound k 46). lia.
Qed.

Lemma default_positions_nodup : NoDup (prioritized_positions default_center).
Proof.
  apply NoDup_incl_NoDup with (l := grid_cells).
  - apply grid_cells_nodup.
  - rewrite positions_length. unfold grid_cells.
    rewrite length_map, length_seq. lia.
  - intros c Hc. apply default_positions_cover, grid_cells_ok, Hc.
Qed.

(** The default enumeration visits every cell of the grid
    [0 .. 45] x [0 .. 45] exactly once, the center cell [(25, 25)] first
    and the others by non-decreasing ring distance from it. *)
Theorem default_enumeration_exact :
  NoDup (prioritized_positions default_center) /\
  (forall px py,
     In (px, py) (prioritized_positions default_center) <->
     (0 <= px <= 45 /\ 0 <= py <= 45)%Z) /\
  hd_error (prioritized_positions default_center) = Some (25, 25)%Z /\
  StronglySorted
    (fun a b => (ring_distance 25 25 a <= ring_distance 25 25 b)%Z)
    (prioritized_positions default_center).
Proof.
  split; [apply default_positions_nodup|]. split.
  - intros px py. rewrite default_positions_cover. apply cell_ok_iff.
  - split; [reflexivity|].
    apply ring_ordered_sorted. vm_compute. reflexivity.
Qed.

(** ** The crystal window *)

Lemma Qint_within_one (q : Q) : q - 1 < inject_Z (Qint q) /\ inject_Z (Qint q) < q + 1.
Proof.
  destruct q as [n d]. unfold Qint, Qlt, Qminus, Qplus, Qopp, inject_Z.
  cbn [Qnum Qden].
  pose proof (Z.quot_rem' n (Z.pos d)) as E.
  pose proof (Pos2Z.is_pos d) as Hd.
  assert (Z.abs (Z.rem n (Z.pos d)) < Z.pos d)%Z as Hr
    by (rewrite <- (Z.abs_eq (Z.pos d)) at 2 by lia; apply Z.rem_bound_abs; lia).
  rewrite !Pos2Z.inj_mul. split; nia.
Qed.

Lemma inject_Z_le (a b : Z) : inject_Z a <= inject_Z b <-> (a <= b)%Z.
Proof. unfold Qle, inject_Z. cbn [Qnum Qden]. lia. Qed.

Lemma inject_Z_lt (a b : Z) : inject_Z a < inject_Z b <-> (a < b)%Z.
Proof. unfold Qlt, inject_Z. cbn [Qnum Qden]. lia. Qed.

Lemma micro_center_x (mx my : Z) :
  fst (center_of (micro_at mx my)) == inject_Z mx + 5 / 2.
Proof. reflexivity. Qed.

Lemma micro_center_y (mx my : Z) :
  snd (center_of (micro_at mx my)) == inject_Z my + 5 / 2.
Proof. reflexivity. Qed.

Lemma window_bounds (c : Q) (m i : Z) :
  c == inject_Z m + 5 / 2 ->
  In i (range (Z.max 0 (Qint (c - PROXIMITY_RADIUS)))
              (Z.min 45 (Qint (c + PROXIMITY_RADIUS)) + 1)) ->
  (m - 8 <= i <= m + 13 /\ 0 <= i <= 45)%Z.
Proof.
  intros Hc Hi. apply in_range in Hi.
  destruct (Qint_within_one (c - PROXIMITY_RADIUS)) as [L _].
  destruct (Qint_within_one (c + PROXIMITY_RADIUS)) as [_ U].
  unfold PROXIMITY_RADIUS in *.
  assert (inject_Z (m + -9) < inject_Z (Qint (c - 10))) as L'.
  { rewrite inject_Z_plus. change (inject_Z (-9)) with (-9 # 1).
    set_half 5. lra. }
  apply (proj1 (inject_Z_lt _ _)) in L'.
  assert (inject_Z (Qint (c + 10)) < inject_Z (m + 14)) as U'.
  { rewrite inject_Z_plus. change (inject_Z 14) with 14.
    set_half 5. lra. }
  apply (proj1 (inject_Z_lt _ _)) in U'. lia.
Qed.

Lemma crystal_cols_bounds (mx my cx : Z) :
  In cx (crystal_cols (micro_at mx my)) ->
  (mx - 8 <= cx <= mx + 13 /\ 0 <= cx <= 45)%Z.
Proof. apply window_bounds, micro_center_x. Qed.

Lemma crystal_rows_bounds (mx my cy : Z) :
  In cy (crystal_rows (micro_at mx my)) ->
  (my - 8 <= cy <= my + 13 /\ 0 <= cy <= 45)%Z.
Proof. apply window_bounds, micro_center_y. Qed.

(** ** Candidates of the search *)

Lemma candidate_shape (base : Placement) (zone mc : Comp) (cx cy : Z)
    (c : Placement * Score) :
  candidate base zone mc cx cy = Some c ->
  fst c = assemble base mc (crystal_at cx cy) /\
  compute_score (fst c) = Some (snd c) /\
  passes base zone mc (crystal_at cx cy) = true.
Proof.
  unfold candidate. destruct (passes _ _ _ _); [|discriminate].
  destruct (compute_score _) as [s|] eqn:E; [|discriminate].
  intros [= <-]. cbn [fst snd]. auto.
Qed.

Lemma in_cell_candidates (base : Placement) (zone : Comp) (cell : Z * Z)
    (c : Placement * Score) :
  In (Some c) (cell_candidates base zone cell) <->
  existsb (bbox_overlap (micro_at (fst cell) (snd cell))) (values base) = false /\
  exists cx cy,
    In cx (crystal_cols (micro_at (fst cell) (snd cell))) /\
    In cy (crystal_rows (micro_at (fst cell) (snd cell))) /\
    candidate base zone (micro_at (fst cell) (snd cell)) cx cy = Some c.
Proof.
  unfold cell_candidates. cbv zeta.
  destruct (existsb _ _).
  - split; [intros [] | intros [H _]; discriminate].
  - rewrite in_flat_map. split.
    + intros (cx & Hcx & H). apply in_map_iff in H.
      destruct H as (cy & H & Hcy). split; [reflexivity|].
      exists cx, cy. auto.
    + intros (_ & cx & cy & Hcx & Hcy & H).
      exists cx. split; [exact Hcx|]. apply in_map_iff. exists cy. auto.
Qed.

Lemma in_accepted {A : Type} (l : list (option A)) (a : A) :
  In a (accepted l) <-> In (Some a) l.
Proof.
  unfold accepted. rewrite in_flat_map. split.
  - intros ([b|] & Hb & H); [|contradiction].
    destruct H as [<-|[]]. exact Hb.
  - intro H. exists (Some a). split; [exact H | left; reflexivity].
Qed.

Lemma in_search_candidates (c : Placement * Score) :
  In c search_candidates <->
  exists mx my cx cy,
    In (mx, my) (prioritized_positions default_center) /\
    existsb (bbox_overlap (micro_at mx my)) (values place_edge_components) = false /\
    In cx (crystal_cols (micro_at mx my)) /\
    In cy (crystal_rows (micro_at mx my)) /\
    candidate place_edge_components SEAT_ZONE (micro_at mx my) cx cy = Some c.
Proof.
  unfold search_candidates. rewrite in_accepted, in_flat_map. split.
  - intros ([mx my] & Hcell & H). apply in_cell_candidates in H.
    cbn [fst snd] in H. destruct H as (Ho & cx & cy & H).
    exists mx, my, cx, cy. tauto.
  - intros (mx & my & cx & cy & Hcell & Ho & H).
    exists (mx, my). split; [exact Hcell|].
    apply in_cell_candidates. cbn [fst snd]. split; [exact Ho|].
    exists cx, cy. exact H.
Qed.

Lemma fold_consider_sat (Phi : Placement * Score -> Prop)
    (l : list (option (Placement * Score))) (best : Best) :
  (forall c, In (Some c) l -> Phi c) -> best_sat Phi best ->
  best_sat Phi (fold_left consider l best).
Proof.
  revert best. induction l as [|o l IH]; intros best Hl Hb; [exact Hb|].
  cbn [fold_left]. apply IH.
  - intros c Hc. apply Hl. right. exact Hc.
  - apply consider_sat; [exact Hb|]. intros c ->. apply Hl. left. reflexivity.
Qed.

Section SearchMembership.

Variable Phi : Placement * Score -> Prop.
Variable expired : Clock.
Variable base : Placement.
Variable zone : Comp.

Lemma loop_cx_mem (mc : Comp) (cxs cys : list Z) (best : Best) (n : nat) :
  (forall cx cy c, In cx cxs -> In cy cys ->
     candidate base zone mc cx cy = Some c -> Phi c) ->
  best_sat Phi best ->
  exists best' n',
    loop_cx expired base zone mc cxs cys best n = Some (best', n') /\
    best_sat Phi best'.
Proof.
  revert best n. induction cxs as [|cx cxs IH]; intros best n Hc Hb.
  - exists best, n. split; [reflexivity | exact Hb].
  - cbn [loop_cx]. destruct (expired n).
    + exists best, (S n). split; [reflexivity | exact Hb].
    + rewrite loop_cy_fold. cbn [bind]. apply IH.
      * intros cx' cy c Hx. apply Hc. right. exact Hx.
      * apply fold_consider_sat; [|exact Hb].
        intros c Hin. apply in_map_iff in Hin. destruct Hin as (cy & E & Hy).
        apply (Hc cx cy c); [left; reflexivity | exact Hy | exact E].
Qed.

Lemma loop_mc_mem (cells : list (Z * Z)) (best : Best) (n : nat) :
  (forall mx my cx cy c,
     In (mx, my) cells ->
     existsb (bbox_overlap (micro_at mx my)) (values base) = false ->
     In cx (crystal_cols (micro_at mx my)) ->
     In cy (crystal_rows (micro_at mx my)) ->
     candidate base zone (micro_at mx my) cx cy = Some c -> Phi c) ->
  best_sat Phi best ->
  exists best' n',
    loop_mc expired base zone cells best n = Some (best', n') /\
    best_sat Phi best'.
Proof.
  revert best n. induction cells as [|[mx my] cells IH]; intros best n Hc Hb.
  - exists best, n. split; [reflexivity | exact Hb].
  - cbn [loop_mc]. destruct (expired n).
    + exists best, (S n). split; [reflexivity | exact Hb].
    + fold (micro_at mx my).
      assert (forall mx' my' cx cy c,
                In (mx', my') cells ->
                existsb (bbox_overlap (micro_at mx' my')) (values base) = false ->
                In cx (crystal_cols (micro_at mx' my')) ->
                In cy (crystal_rows (micro_at mx' my')) ->
                candidate base zone (micro_at mx' my') cx cy = Some c -> Phi c)
        as Hc' by (intros; eapply Hc; [right; eassumption | eassumption..]).
      destruct (existsb (bbox_overlap (micro_at mx my)) (values base)) eqn:Ho.
      * apply IH; assumption.
      * cbv zeta. fold (crystal_cols (micro_at mx my)).
        fold (crystal_rows (micro_at mx my)).
        destruct (loop_cx_mem (micro_at mx my) (crystal_cols (micro_at mx my))
                    (crystal_rows (micro_at mx my)) best (S n))
          as (b' & n' & -> & Hb').
        { intros cx cy c Hx Hy. apply (Hc mx my); auto. left. reflexivity. }
        { exact Hb. }
        cbn [bind fst snd]. apply IH; assumption.
Qed.

End SearchMembership.

Lemma find_solution_mem (Phi : Placement * Score -> Prop) (expired : Clock) :
  (forall c, In c search_candidates -> Phi c) ->
  exists best, find_solution expired = Some best /\ best_sat Phi best.
Proof.
  intro H. rewrite find_solution_unfold.
  destruct (loop_mc_mem Phi expired place_edge_components SEAT_ZONE
              (prioritized_positions default_center) None 0)
    as (best & n & -> & Hb).
  - intros mx my cx cy c Hcell Ho Hx Hy Hc. apply H.
    apply in_search_candidates. exists mx, my, cx, cy. auto.
  - exact I.
  - exists best. split; [reflexivity | exact Hb].
Qed.

(** ** What the search returns *)

Lemma search_candidate_shape (c : Placement * Score) :
  In c search_candidates ->
  exists mx my cx cy,
    (0 <= mx <= 45 /\ 0 <= my <= 45 /\ 0 <= cx <= 45 /\ 0 <= cy <= 45)%Z /\
    fst c = grid_placement mx my cx cy /\
    compute_score (fst c) = Some (snd c).
Proof.
  intro H. apply in_search_candidates in H.
  destruct H as (mx & my & cx & cy & Hcell & _ & Hx & Hy & Hc).
  apply default_positions_cover in Hcell. cbn [fst snd] in Hcell.
  apply cell_ok_iff in Hcell.
  apply crystal_cols_bounds in Hx. apply crystal_rows_bounds in Hy.
  apply candidate_shape in Hc. destruct Hc as (Hp & Hs & _).
  exists mx, my, cx, cy. split; [lia|]. split; [|exact Hs].
  rewrite Hp. apply assemble_seated.
Qed.

Lemma find_solution_total (expired : Clock) :
  exists best, find_solution expired = Some best.
Proof.
  destruct (find_solution_mem (fun _ => True) expired) as (best & E & _);
    [trivial | eauto].
Qed.

(** The search never raises, whatever the clock does, and when the deadline
    has already passed at the first poll it returns the no-solution value
    without trying a cell. *)
Theorem find_solution_never_raises (expired : Clock) :
  (exists best, find_solution expired = Some best) /\
  (expired 0%nat = true -> find_solution expired = Some None).
Proof.
  split; [apply find_solution_total|].
  intro H. rewrite find_solution_unfold.
  unfold prioritized_positions. cbv zeta. cbn [loop_mc]. rewrite H.
  reflexivity.
Qed.

Lemma find_solution_never_raises_witness :
  find_solution (fun _ => true) = Some None.
Proof.
  apply (find_solution_never_raises (fun _ => true)). reflexivity.
Defined.

(** A placement returned by the search consists of the three seated
    connectors followed by a 5 x 5 microcontroller and a 5 x 5 crystal on
    integer cells of the grid [0 .. 45] x [0 .. 45], and the score returned
    with it is the score [compute_score] gives for that placement. *)
Theorem find_solution_result_shape
    (expired : Clock) (p : Placement) (s : Score) :
  find_solution expired = Some (Some (p, s)) ->
  exists mx my cx cy,
    (0 <= mx <= 45 /\ 0 <= my <= 45 /\ 0 <= cx <= 45 /\ 0 <= cy <= 45)%Z /\
    p = grid_placement mx my cx cy /\
    compute_score p = Some s.
Proof.
  intro H.
  destruct (find_solution_mem
              (fun c => exists mx my cx cy,
                 (0 <= mx <= 45 /\ 0 <= my <= 45 /\
                  0 <= cx <= 45 /\ 0 <= cy <= 45)%Z /\
                 fst c = grid_placement mx my cx cy /\
                 compute_score (fst c) = Some (snd c)) expired)
    as (best & E & Hb); [apply search_candidate_shape|].
  rewrite H in E. injection E as <-. exact Hb.
Qed.

Lemma find_solution_result_shape_witness :
  exists mx my cx cy,
    (0 <= mx <= 45 /\ 0 <= my <= 45 /\ 0 <= cx <= 45 /\ 0 <= cy <= 45)%Z /\
    grid_placement 25 25 17 19 = grid_placement mx my cx cy /\
    compute_score (grid_placement 25 25 17 19) = Some (mkScore 2000 (3200 # 256)).
Proof.
  apply (find_solution_result_shape fourth_poll). vm_compute. reflexivity.
Defined.

(** Whatever the deadline, the placement returned is one of the candidates
    the exhaustive search accepts, and the exhaustive search returns a
    placement whose total score is not larger. *)
Theorem exhaustive_search_not_worse
    (expired : Clock) (p : Placement) (s : Score) :
  find_solution expired = Some (Some (p, s)) ->
  In (p, s) search_candidates /\
  exists p0 s0,
    find_solution never = Some (Some (p0, s0)) /\
    (total_score s0 <= total_score s)%R.
Proof.
  intro H.
  assert (In (p, s) search_candidates) as Hin.
  { destruct (find_solution_mem (fun c => In c search_candidates) expired)
      as (best & E & Hb); [trivial|].
    rewrite H in E. injection E as <-. exact Hb. }
  split; [exact Hin|].
  destruct exhaustive_run as (best & polls & _ & _ & E & _ & Hbest).
  destruct best as [[p0 s0]|].
  - exists p0, s0. split; [exact E|].
    destruct Hbest as [_ Hmin]. apply (Hmin (p, s) Hin).
  - rewrite Hbest in Hin. contradiction.
Qed.

Lemma exhaustive_search_not_worse_witness :
  exists s,
    In (grid_placement 25 25 17 19, s) search_candidates /\
    exists p0 s0,
      find_solution never = Some (Some (p0, s0)) /\
      (total_score s0 <= total_score s)%R.
Proof.
  eexists. eapply (exhaustive_search_not_worse fourth_poll).
  vm_compute. reflexivity.
Defined.

(** ** Ties and the optimum *)

Lemma fold_keep_better_first (l : list (Placement * Score))
    (b : Placement * Score) :
  Forall score_nonneg l -> score_nonneg b ->
  exists r,
    fold_left keep_better l (Some b) = Some r /\
    ((r = b /\
      forall c, In c l -> (total_score (snd b) <= total_score (snd c))%R) \/
     (exists l1 l2,
        l = l1 ++ r :: l2 /\
        (total_score (snd r) < total_score (snd b))%R /\
        (forall c, In c l1 -> (total_score (snd r) < total_score (snd c))%R) /\
        (forall c, In c l2 -> (total_score (snd r) <= total_score (snd c))%R))).
Proof.
  revert b. induction l as [|c l IH]; intros b Hl Hb.
  - exists b. split; [reflexivity|]. left. split; [reflexivity | intros c []].
  - inversion Hl as [|c' l' Hc Hl']. subst c' l'.
    cbn [fold_left]. rewrite keep_better_some.
    pose proof (score_ltb_spec (snd c) (snd b) Hc Hb) as S.
    destruct (score_ltb (snd c) (snd b)).
    + assert (total_score (snd c) < total_score (snd b))%R as Lt
        by (apply S; reflexivity).
      destruct (IH c Hl' Hc) as (r & E & [[-> Hmin]|(l1 & l2 & -> & Hr & H1 & H2)]).
      * exists c. split; [exact E|]. right. exists [], l.
        split; [reflexivity|]. split; [exact Lt|].
        split; [intros c0 [] | exact Hmin].
      * exists r. split; [exact E|]. right. exists (c :: l1), l2.
        split; [reflexivity|]. split; [lra|]. split; [|exact H2].
        intros c0 [<-|H0]; [exact Hr | apply H1, H0].
    + assert (~ (total_score (snd c) < total_score (snd b))%R) as Ge
        by (intro Lt; apply S in Lt; discriminate).
      destruct (IH b Hl' Hb) as (r & E & [[-> Hmin]|(l1 & l2 & -> & Hr & H1 & H2)]).
      * exists b. split; [exact E|]. left. split; [reflexivity|].
        intros c0 [<-|H0]; [lra | apply Hmin, H0].
      * exists r. split; [exact E|]. right. exists (c :: l1), l2.
        split; [reflexivity|]. split; [exact Hr|]. split; [|exact H2].
        intros c0 [<-|H0]; [lra | apply H1, H0].
Qed.

Lemma exhaustive_first_minimum :
  exists l1 b l2,
    search_candidates = l1 ++ b :: l2 /\
    find_solution never = Some (Some b) /\
    (forall c, In c l1 -> (total_score (snd b) < total_score (snd c))%R) /\
    (forall c, In c l2 -> (total_score (snd b) <= total_score (snd c))%R).
Proof.
  destruct exhaustive_run as (best & polls & _ & _ & E & F & _).
  pose proof search_candidates_nonneg as N.
  pose proof search_candidates_nonempty as NE.
  destruct search_candidates as [|c l]; [congruence|].
  inversion N as [|c' l' Hc Hl]. subst c' l'.
  cbn [fold_left] in F. change (keep_better None c) with (Some c) in F.
  destruct (fold_keep_better_first l c Hl Hc)
    as (r & Er & [[-> Hmin]|(l1 & l2 & -> & Hr & H1 & H2)]).
  - exists [], c, l. rewrite Er in F. subst best.
    split; [reflexivity|]. split; [exact E|]. split; [intros c0 [] | exact Hmin].
  - exists (c :: l1), r, l2. rewrite Er in F. subst best.
    split; [reflexivity|]. split; [exact E|]. split; [|exact H2].
    intros c0 [<-|H0]; [exact Hr | apply H1, H0].
Qed.

(** Ties go to the candidate found first: the placement the exhaustive
    search returns is the first accepted candidate of minimal total score,
    every candidate enumerated before it having a strictly larger total. *)
Theorem exhaustive_search_first_found_wins :
  exists l1 b l2,
    search_candidates = l1 ++ b :: l2 /\
    find_solution never = Some (Some b) /\
    (forall c, In c l1 -> (total_score (snd b) < total_score (snd c))%R) /\
    (forall c, In c l2 -> (total_score (snd b) <= total_score (snd c))%R).
Proof. exact exhaustive_first_minimum. Qed.

(** ** Tests of the crystal loop that never reject *)

Lemma grid_crystal_in_bounds (cx cy : Z) :
  (0 <= cx <= 45)%Z -> (0 <= cy <= 45)%Z -> in_bounds (crystal_at cx cy) = true.
Proof.
  intros Hx Hy. apply in_bounds_iff. unfold inside_board, crystal_at.
  cbn [x y w h]. change (inject_Z (fst (SIZES XTAL))) with (inject_Z 5).
  change (inject_Z (snd (SIZES XTAL))) with (inject_Z 5).
  change BOARD_W with (inject_Z 50). change BOARD_H with (inject_Z 50).
  change 0 with (inject_Z 0). rewrite <- !inject_Z_plus, !inject_Z_le. lia.
Qed.

Lemma window_in_board (mc : Comp) (cx cy : Z) :
  In cx (crystal_cols mc) -> In cy (crystal_rows mc) ->
  in_bounds (crystal_at cx cy) = true.
Proof.
  unfold crystal_cols, crystal_rows. rewrite !in_range.
  change (fst BOARD_DIMS - fst (SIZES XTAL))%Z with 45%Z.
  change (snd BOARD_DIMS - snd (SIZES XTAL))%Z with 45%Z.
  intros Hx Hy. apply grid_crystal_in_bounds; lia.
Qed.

Lemma no_pair_left (mc xt : Comp) :
  existsb (bbox_overlap mc) (values place_edge_components) = false ->
  existsb (bbox_overlap xt) (values place_edge_components) = false ->
  bbox_overlap xt mc = false ->
  any_overlap bbox_overlap (values (assemble place_edge_components mc xt)) = false.
Proof.
  rewrite assemble_seated, seated_base. cbn [values map snd existsb any_overlap].
  intros HM HX MX.
  apply orb_false_iff in HM. destruct HM as [M1 HM].
  apply orb_false_iff in HM. destruct HM as [M2 HM].
  apply orb_false_iff in HM. destruct HM as [M3 _].
  apply orb_false_iff in HX. destruct HX as [X1 HX].
  apply orb_false_iff in HX. destruct HX as [X2 HX].
  apply orb_false_iff in HX. destruct HX as [X3 _].
  rewrite (bbox_overlap_sym MB1_SEAT mc), (bbox_overlap_sym MB2_SEAT mc),
          (bbox_overlap_sym USB_SEAT mc), (bbox_overlap_sym MB1_SEAT xt),
          (bbox_overlap_sym MB2_SEAT xt), (bbox_overlap_sym USB_SEAT xt),
          (bbox_overlap_sym mc xt), M1, M2, M3, X1, X2, X3, MX.
  reflexivity.
Qed.

(** Two tests of the crystal loop never reject a candidate.  Every crystal
    cell of the window lies on the board, so the bounds test passes; and
    once the microcontroller and the crystal clear the seated connectors
    and each other, no two of the five rectangles overlap, so the final
    all-pairs collision test passes. *)
Theorem crystal_loop_redundant_tests (mc xt : Comp) (cx cy : Z) :
  (In cx (crystal_cols mc) -> In cy (crystal_rows mc) ->
   in_bounds (crystal_at cx cy) = true) /\
  (existsb (bbox_overlap mc) (values place_edge_components) = false ->
   existsb (bbox_overlap xt) (values place_edge_components) = false ->
   bbox_overlap xt mc = false ->
   any_overlap bbox_overlap
     (values (assemble place_edge_components mc xt)) = false).
Proof.
  split; [apply window_in_board | apply no_pair_left].
Qed.

Lemma crystal_loop_redundant_tests_witness :
  in_bounds (crystal_at 17 19) = true /\
  any_overlap bbox_overlap
    (values (assemble place_edge_components (micro_at 25 25)
               (crystal_at 17 19))) = false.
Proof.
  destruct (crystal_loop_redundant_tests (micro_at 25 25) (crystal_at 17 19)
              17 19) as [H1 H2].
  split.
  - apply H1; vm_compute; repeat first [left; reflexivity | right].
  - apply H2; reflexivity.
Defined.

(** ** Cells the window leaves out *)

Lemma micro_at_inj (mx my mx' my' : Z) :
  micro_at mx my = micro_at mx' my' -> mx = mx' /\ my = my'.
Proof. unfold micro_at, inject_Z. intros [= -> ->]. auto. Qed.

Lemma crystal_at_inj (cx cy cx' cy' : Z) :
  crystal_at cx cy = crystal_at cx' cy' -> cx = cx' /\ cy = cy'.
Proof. unfold crystal_at, inject_Z. intros [= -> ->]. auto. Qed.

Lemma grid_placement_inj (mx my cx cy mx' my' cx' cy' : Z) :
  grid_placement mx my cx cy = grid_placement mx' my' cx' cy' ->
  mx = mx' /\ my = my' /\ cx = cx' /\ cy = cy'.
Proof.
  unfold grid_placement. intro E.
  assert (micro_at mx my = micro_at mx' my') as Hm by congruence.
  assert (crystal_at cx cy = crystal_at cx' cy') as Hc by congruence.
  apply micro_at_inj in Hm. apply crystal_at_inj in Hc. tauto.
Qed.

Lemma search_candidate_window (c : Placement * Score) :
  In c search_candidates ->
  exists mx my cx cy,
    fst c = grid_placement mx my cx cy /\
    (mx - 8 <= cx <= mx + 13 /\ my - 8 <= cy <= my + 13)%Z.
Proof.
  intro H. apply in_search_candidates in H.
  destruct H as (mx & my & cx & cy & _ & _ & Hx & Hy & Hc).
  apply crystal_cols_bounds in Hx. apply crystal_rows_bounds in Hy.
  apply candidate_shape in Hc. destruct Hc as (Hp & _).
  exists mx, my, cx, cy. split; [|lia].
  rewrite Hp. apply assemble_seated.
Qed.

(** The crystal window is not centred on the microcontroller: the crystal
    cells tried lie 8 columns (rows) before to 13 after the cell of the
    microcontroller.  So feasible placements are never tried: with the
    microcontroller at [(25, 25)] the crystal at [(25, 15)] passes every
    test of the search and the validator, yet no candidate of the search
    has this placement. *)
Theorem crystal_window_off_centre :
  (forall mx my cx cy,
     In cx (crystal_cols (micro_at mx my)) ->
     In cy (crystal_rows (micro_at mx my)) ->
     (mx - 8 <= cx <= mx + 13 /\ my - 8 <= cy <= my + 13)%Z) /\
  existsb (bbox_overlap (micro_at 25 25)) (values place_edge_components) = false /\
  passes place_edge_components SEAT_ZONE (micro_at 25 25) (crystal_at 25 15) = true /\
  (exists results,
     validate_full (grid_placement 25 25 25 15) = Some (true, Rules results)) /\
  (forall c, In c search_candidates -> fst c <> grid_placement 25 25 25 15).
Proof.
  split.
  { intros mx my cx cy Hx Hy.
    apply crystal_cols_bounds in Hx. apply crystal_rows_bounds in Hy. lia. }
  split; [reflexivity|]. split; [vm_compute; reflexivity|].
  split; [eexists; vm_compute; reflexivity|].
  intros c Hc E. apply search_candidate_window in Hc.
  destruct Hc as (mx & my & cx & cy & Hp & Hw).
  rewrite Hp in E. apply grid_placement_inj in E. lia.
Qed.

Lemma crystal_window_off_centre_witness :
  (25 - 8 <= 17 <= 25 + 13 /\ 25 - 8 <= 19 <= 25 + 13)%Z.
Proof.
  destruct crystal_window_off_centre as [H _].
  apply (H 25 25 17 19)%Z; vm_compute; repeat first [left; reflexivity | right].
Defined.

(** ** The optimum of the search *)

Lemma compute_score_inv (p : Placement) (s : Score) :
  compute_score p = Some s ->
  exists min_x max_x min_y max_y micro,
    bounding_box p = Some (min_x, max_x, min_y, max_y) /\
    get p MC = Some micro /\
    s = mkScore ((max_x - min_x) * (max_y - min_y))
                (dist_sq (center_of micro) board_center).
Proof.
  unfold compute_score, bounding_box.
  destruct (min_of (map x (values p))) as [a|]; [|discriminate].
  destruct (max_of (map (fun c => x c + w c) (values p))) as [b|];
    [|discriminate].
  destruct (min_of (map y (values p))) as [lo|]; [|discriminate].
  destruct (max_of (map (fun c => y c + h c) (values p))) as [hi|];
    [|discriminate].
  destruct (get p MC) as [micro|]; [|discriminate].
  cbn [bind]. intros [= <-]. exists a, b, lo, hi, micro. auto.
Qed.

Lemma odd_square_quarter (m : Z) (q : Q) :
  2 * q == inject_Z (2 * m + -45) -> 1 # 4 <= q * q.
Proof.
  intro E.
  assert (inject_Z 1 <= inject_Z ((2 * m + -45) * (2 * m + -45))) as H
    by (apply inject_Z_le;
        destruct (Z_le_gt_dec (2 * m + -45) 0); nia).
  rewrite inject_Z_mult, <- E in H. change (inject_Z 1) with 1 in H. lra.
Qed.

Lemma micro_centrality (mx my : Z) :
  1 # 2 <= dist_sq (center_of (micro_at mx my)) board_center.
Proof.
  unfold dist_sq.
  assert (2 * (fst (center_of (micro_at mx my)) - fst board_center) ==
          inject_Z (2 * mx + -45)) as Ex.
  { rewrite inject_Z_plus, inject_Z_mult.
    unfold center_of, micro_at, board_center. cbn [fst snd x y w h].
    change (inject_Z (fst (SIZES MC))) with 5. change BOARD_W with 50.
    change (inject_Z 2) with 2. change (inject_Z (-45)) with (-45 # 1). field. }
  assert (2 * (snd (center_of (micro_at mx my)) - snd board_center) ==
          inject_Z (2 * my + -45)) as Ey.
  { rewrite inject_Z_plus, inject_Z_mult.
    unfold center_of, micro_at, board_center. cbn [fst snd x y w h].
    change (inject_Z (snd (SIZES MC))) with 5. change BOARD_H with 50.
    change (inject_Z 2) with 2. change (inject_Z (-45)) with (-45 # 1). field. }
  pose proof (odd_square_quarter _ _ Ex). pose proof (odd_square_quarter _ _ Ey).
  lra.
Qed.

Lemma search_candidate_score (c : Placement * Score) :
  In c search_candidates ->
  2000 <= bounding_box_area (snd c) /\ 1 # 2 <= centrality_sq (snd c).
Proof.
  intro H. apply search_candidate_shape in H.
  destruct H as (mx & my & cx & cy & _ & Hp & Hs).
  apply compute_score_inv in Hs.
  destruct Hs as (a & b & lo & hi & micro & B & M & ->).
  rewrite Hp in B, M. cbn [bounding_box_area centrality_sq].
  assert (micro = micro_at mx my) as -> by (cbn in M; congruence).
  split; [|apply micro_centrality].
  destruct (bounding_box_encloses _ MB1_SEAT _ _ _ _ B) as (A1 & _ & A3 & _);
    [left; reflexivity|].
  destruct (bounding_box_encloses _ MB2_SEAT _ _ _ _ B) as (_ & A2 & _ & _);
    [right; left; reflexivity|].
  destruct (bounding_box_encloses _ USB_SEAT _ _ _ _ B) as (_ & _ & _ & A4);
    [right; right; left; reflexivity|].
  cbn [x y w h MB1_SEAT MB2_SEAT USB_SEAT] in A1, A2, A3, A4.
  assert (50 <= b - a) as Hw by lra. assert (40 <= hi - lo) as Hh by lra.
  nra.
Qed.

Section OptimumInReals.
Local Open Scope R_scope.

Lemma total_score_lower (s : Score) :
  (2000 <= bounding_box_area s)%Q -> (1 # 2 <= centrality_sq s)%Q ->
  2000 <= Q2R (bounding_box_area s) /\
  sqrt (1 / 2) <= sqrt (Q2R (centrality_sq s)) /\
  2000 + 10 * sqrt (1 / 2) <= total_score s.
Proof.
  intros Ha Hc. apply Qle_Rle in Ha, Hc.
  replace (Q2R 2000) with 2000 in Ha by (unfold Q2R; simpl; lra).
  replace (Q2R (1 # 2)) with (1 / 2) in Hc by (unfold Q2R; simpl; lra).
  pose proof (sqrt_le_1_alt _ _ Hc) as Hs.
  unfold total_score, centrality_score. repeat split; lra.
Qed.

Lemma total_score_optimal (s : Score) :
  (2000 <= bounding_box_area s)%Q -> (1 # 2 <= centrality_sq s)%Q ->
  total_score s <= 2000 + 10 * sqrt (1 / 2) ->
  (bounding_box_area s == 2000)%Q /\ (centrality_sq s == 1 # 2)%Q /\
  total_score s = 2000 + 10 * sqrt (1 / 2).
Proof.
  intros Ha Hc Hle.
  destruct (total_score_lower s Ha Hc) as (La & Ls & Lt).
  unfold total_score, centrality_score in *.
  assert (Q2R (bounding_box_area s) = 2000) as Ea by lra.
  assert (sqrt (Q2R (centrality_sq s)) = sqrt (1 / 2)) as Es by lra.
  split; [|split; [|lra]].
  - apply eqR_Qeq. rewrite Ea. unfold Q2R. simpl. lra.
  - apply eqR_Qeq. apply sqrt_inj in Es.
    + rewrite Es. unfold Q2R. simpl. lra.
    + apply Qle_Rle in Hc. unfold Q2R in Hc at 1. simpl in Hc. lra.
    + lra.
Qed.

End OptimumInReals.

Lemma optimal_candidate :
  exists c, In c search_candidates /\
            bounding_box_area (snd c) == 2000 /\ centrality_sq (snd c) == 1 # 2.
Proof.
  assert (exists c, candidate place_edge_components SEAT_ZONE
                      (micro_at 23 23) 15 17 = Some c /\
                    bounding_box_area (snd c) == 2000 /\
                    centrality_sq (snd c) == 1 # 2) as (c & Hc & Ha & Hs)
    by (eexists; split; [vm_compute; reflexivity | split; reflexivity]).
  exists c. split; [|auto].
  apply in_search_candidates. exists 23%Z, 23%Z, 15%Z, 17%Z.
  split; [apply default_positions_cover; reflexivity|].
  split; [reflexivity|].
  split; [vm_compute; repeat first [left; reflexivity | right]|].
  split; [vm_compute; repeat first [left; reflexivity | right] | exact Hc].
Qed.

Lemma exhaustive_optimum :
  (forall c, In c search_candidates ->
             (2000 + 10 * sqrt (1 / 2) <= total_score (snd c))%R) /\
  exists p s,
    find_solution never = Some (Some (p, s)) /\
    bounding_box_area s == 2000 /\ centrality_sq s == 1 # 2 /\
    total_score s = (2000 + 10 * sqrt (1 / 2))%R.
Proof.
  split.
  - intros c Hc. destruct (search_candidate_score c Hc) as [Ha Hs].
    apply (total_score_lower _ Ha Hs).
  - destruct exhaustive_run as (best & polls & _ & _ & E & _ & Hbest).
    destruct optimal_candidate as (c0 & Hin0 & Ha0 & Hs0).
    destruct best as [[p s]|]; [|rewrite Hbest in Hin0; contradiction].
    destruct Hbest as [Hin Hmin]. exists p, s. split; [exact E|].
    destruct (search_candidate_score _ Hin) as [Ha Hs]. cbn [snd] in Ha, Hs.
    apply (total_score_optimal s Ha Hs).
    pose proof (Hmin c0 Hin0) as Hle. cbn [snd] in Hle.
    assert (total_score (snd c0) = (2000 + 10 * sqrt (1 / 2))%R) as E0.
    { unfold total_score, centrality_score.
      rewrite (Qeq_eqR _ _ Ha0), (Qeq_eqR _ _ Hs0).
      replace (Q2R 2000) with 2000%R by (unfold Q2R; simpl; lra).
      replace (Q2R (1 # 2)) with (1 / 2)%R by (unfold Q2R; simpl; lra).
      reflexivity. }
    rewrite E0 in Hle. exact Hle.
Qed.

(** No candidate of the search scores below [2000 + 10 * sqrt (1/2)]: the
    seated connectors force a bounding box of area at least 2000 and the
    microcontroller, on an integer cell, cannot sit closer than
    [sqrt (1/2)] to the board center.  The exhaustive search returns a
    placement with exactly this score. *)
Theorem exhaustive_search_optimum :
  (forall c, In c search_candidates ->
             (2000 + 10 * sqrt (1 / 2) <= total_score (snd c))%R) /\
  exists p s,
    find_solution never = Some (Some (p, s)) /\
    bounding_box_area s == 2000 /\ centrality_sq s == 1 # 2 /\
    total_score s = (2000 + 10 * sqrt (1 / 2))%R.
Proof. exact exhaustive_optimum. Qed.

(** ** Order of the entries of a placement *)















(** ** The bounding box of the scorer *)







